(** * astng: scoped nodes, tree rebuilder and deferred attribute resolution

    A shallow embedding of the parts of [scoped_nodes.py], [rebuilder.py]
    and [_nodes_compiler.py] that the specification talks about, with the
    properties of the specification stated and proved over it.

    Python objects are identified by natural numbers (object identity);
    the node graph is a store of class, function and module records
    indexed by those identities, so that two references to one class
    alias the same [locals] and [instance_attrs] dictionaries.
    Generators are modelled by the list of the values they yield. *)

From Stdlib Require Import Lia.
From stdpp Require Import base option list gmap fin_sets strings.

Set Warnings "-register-all".

Open Scope string_scope.
Open Scope list_scope.

(** ** Node graph *)

(** The frame of a node: the module, class or function it lives in
    ([node.frame()]); a scope node is its own frame. *)
Inductive scope_ref :=
  | InModule (m : nat)
  | InClass (c : nat)
  | InFunction (f : nat).

(** Values wrapped by [const_factory] ([cf]). *)
Inductive const_value :=
  | CNone
  | CBool (b : bool)
  | CStr (s : string)
  | CClasses (cs : list nat).

(** The node classes, other than the scopes, that end up in a [locals]
    or [instance_attrs] dictionary. *)
Inductive node_kind :=
  | AssName | DelName | AssAttr | DelAttr | EmptyNode | Arguments | Import
  | Const.

(** A node of the graph, by identity.  Every such node has a parent
    chain, hence a frame. *)
Inductive node :=
  | ModuleN (m : nat)
  | ClassN (c : nat)
  | FunctionN (f : nat)
  | StmtN (k : node_kind) (id : nat) (fr : scope_ref).

(** What [getattr] returns: nodes of the graph, and the parentless
    nodes that the special attributes synthesize ([cf(...)], [Dict()],
    [List()]). *)
Inductive attr_node :=
  | Existing (n : node)
  | SynthConst (v : const_value)
  | SynthDict
  | SynthList.

(** What one step of inference can produce.  [Instance] is the generic
    instance proxy itself ([infered.__class__ is Instance]); [ConstInst]
    and [BuiltinInst] are its strict subclasses ([Const], resp. [Tuple],
    [List], [Dict], ...), each with the class it proxies. *)
Inductive inferred :=
  | YES
  | Instance (proxied : nat)
  | ConstInst (v : const_value) (proxied : nat)
  | BuiltinInst (proxied : nat)
  | Node (n : node).

(** Expressions, as far as the rebuilder looks into them. *)
Inductive expr :=
  | Name (name : string)
  | Getattr (e : expr) (attrname : string)
  | CallFunc (func : expr)
  | OtherExpr (id : nat).

Inductive exn :=
  | NotFoundError | InferenceError | AttributeError | IndexError
  | AssertionError.

(** A returned value or a raised exception. *)
Inductive res (A : Type) :=
  | Ok (a : A)
  | Raise (e : exn).
Arguments Ok {A} a.
Arguments Raise {A} e.

#[global] Instance scope_ref_eq_dec : EqDecision scope_ref.
Proof. solve_decision. Defined.
#[global] Instance const_value_eq_dec : EqDecision const_value.
Proof. solve_decision. Defined.
#[global] Instance node_kind_eq_dec : EqDecision node_kind.
Proof. solve_decision. Defined.
#[global] Instance node_eq_dec : EqDecision node.
Proof. solve_decision. Defined.
#[global] Instance attr_node_eq_dec : EqDecision attr_node.
Proof. solve_decision. Defined.
#[global] Instance inferred_eq_dec : EqDecision inferred.
Proof. solve_decision. Defined.
#[global] Instance exn_eq_dec : EqDecision exn.
Proof. solve_decision. Defined.

(** The [type] of a function: 'function' | 'method' | 'staticmethod' |
    'classmethod'. *)
Inductive role := RFunction | RMethod | RStaticmethod | RClassmethod.

#[global] Instance role_eq_dec : EqDecision role.
Proof. solve_decision. Defined.

Record ClassNode := mkClass {
  c_name : string;
  c_doc : option string;
  c_root : nat;
  c_bases : list nat;
  c_locals : gmap string (list node);
  c_instance_attrs : gmap string (list node);
  c_newstyle : option bool
}.

Record FunctionNode := mkFunction {
  f_name : string;
  f_doc : option string;
  f_root : nat;
  f_type : role;
  f_decorators : option (list expr);
  f_locals : gmap string (list node)
}.

Record ModuleNode := mkModule {
  m_name : string;
  m_doc : option string;
  m_file : option string;
  m_package : bool;
  m_locals : gmap string (list node);
  m_submodules : gmap string nat
}.

(** Modelled from the spec: the result of inferring an expression node
    ([stmt.infer(context)], module [infutils], not part of the sources at
    hand) is "a lazily produced, finite sequence of candidate
    nodes/instances"; the iteration may end with an [InferenceError]. *)
Record infer_outcome := mkOutcome {
  yielded : list inferred;
  raises : bool
}.

Record Graph := mkGraph {
  classes : gmap nat ClassNode;
  functions : gmap nat FunctionNode;
  modules : gmap nat ModuleNode;
  inferences : gmap nat infer_outcome
}.

Definition bases_of (g : Graph) (c : nat) : list nat :=
  default [] (c_bases <$> classes g !! c).

(** ** Reading the graph *)

(** [scope.locals]; a reference outside the graph reads as empty. *)
Definition locals_of (g : Graph) (s : scope_ref) : gmap string (list node) :=
  match s with
  | InModule m => default ∅ (m_locals <$> modules g !! m)
  | InClass c => default ∅ (c_locals <$> classes g !! c)
  | InFunction f => default ∅ (f_locals <$> functions g !! f)
  end.

(** [scope.name] and [scope.doc]. *)
Definition scope_name (g : Graph) (s : scope_ref) : string :=
  match s with
  | InModule m => default "" (m_name <$> modules g !! m)
  | InClass c => default "" (c_name <$> classes g !! c)
  | InFunction f => default "" (f_name <$> functions g !! f)
  end.

Definition scope_doc (g : Graph) (s : scope_ref) : option string :=
  match s with
  | InModule m => modules g !! m ≫= m_doc
  | InClass c => classes g !! c ≫= c_doc
  | InFunction f => functions g !! f ≫= f_doc
  end.

(** [node.frame()]. *)
Definition node_frame (n : node) : scope_ref :=
  match n with
  | ModuleN m => InModule m
  | ClassN c => InClass c
  | FunctionN f => InFunction f
  | StmtN _ _ fr => fr
  end.

(** [scope.root().name] (also [root().qname()], the name of the root
    module). *)
Definition root_of (g : Graph) (s : scope_ref) : nat :=
  match s with
  | InModule m => m
  | InClass c => default 0 (c_root <$> classes g !! c)
  | InFunction f => default 0 (f_root <$> functions g !! f)
  end.

Definition root_name (g : Graph) (s : scope_ref) : string :=
  scope_name g (InModule (root_of g s)).

(** [cf(value)] for a string attribute that may be [None]. *)
Definition cf (v : option string) : attr_node :=
  SynthConst (match v with Some s => CStr s | None => CNone end).

(** [std_special_attributes(self, name, add_locals)]. *)
Definition std_special_attributes (g : Graph) (self : scope_ref)
    (name : string) (add_locals : bool) : res (list attr_node) :=
  let locals := if add_locals then locals_of g self else ∅ in
  let found := Existing <$> default [] (locals !! name) in
  if decide (name = "__name__") then
    Ok (cf (Some (scope_name g self)) :: found)
  else if decide (name = "__doc__") then
    Ok (cf (scope_doc g self) :: found)
  else if decide (name = "__dict__") then Ok (SynthDict :: found)
  else Raise NotFoundError.

(** [remove_nodes(func, cls)]: the decorator that drops the nodes of
    class [cls] from the result of [func] and raises [NotFoundError]
    when nothing is left. *)
Definition is_kind (k : node_kind) (n : attr_node) : bool :=
  match n with
  | Existing (StmtN k' _ _) => bool_decide (k' = k)
  | _ => false
  end.

Definition remove_nodes (cls : node_kind) (r : res (list attr_node))
    : res (list attr_node) :=
  match r with
  | Ok l =>
    let nodes := filter (fun n => is_kind cls n = false) l in
    match nodes with
    | [] => Raise NotFoundError
    | _ => Ok nodes
    end
  | Raise e => Raise e
  end.

(** The values an attribute lookup by inference yields: inferred
    candidates, and the method views of functions found on a class. *)
Inductive attr_value :=
  | Inf (i : inferred)
  | BoundMethod (f : nat) (klass : nat)
  | UnboundMethod (f : nat).

(** [function_to_method(n, klass)]. *)
Definition function_to_method (g : Graph) (n : inferred) (klass : nat)
    : attr_value :=
  match n with
  | Node (FunctionN f) =>
    match f_type <$> functions g !! f with
    | Some RClassmethod => BoundMethod f klass
    | Some RStaticmethod => Inf n
    | _ => UnboundMethod f
    end
  | _ => Inf n
  end.

(** What a generator produced: the values it yielded and the exception
    that ended it, if any. *)
Record generated (A : Type) := mkGenerated {
  yields : list A;
  raised : option exn
}.
Arguments mkGenerated {A} yields raised.
Arguments yields {A} g.
Arguments raised {A} g.

(** A generator body that handled its candidates one after the other:
    it yields up to the first candidate whose handling raised. *)
Fixpoint generate {A} (steps : list (res A)) (final : option exn)
    : generated A :=
  match steps with
  | [] => mkGenerated [] final
  | Ok a :: rest =>
    let r := generate rest final in mkGenerated (a :: yields r) (raised r)
  | Raise e :: _ => mkGenerated [] (Some e)
  end.

(** ** Inference context *)

(** Modelled from the spec: [stmt.infer(context)] and the inference
    context of module [infutils], which are not part of the sources at
    hand.  The context "tracks in-progress lookups to detect and abort
    infinite mutual recursion"; "on detected recursion, treat the cycle
    as not found/empty rather than looping".  The context is the list
    of expression nodes whose inference is in progress.  [infer g path
    stmt] is what iterating [stmt.infer(context)] yields: nothing when
    [stmt] is already in progress, the recorded candidates otherwise (an
    expression without a record raises [InferenceError] at once).  While
    the consumer handles a yielded candidate the generator is suspended,
    so [stmt] is still in progress: the consumer runs under
    [stmt :: path]. *)
Definition infer (g : Graph) (path : list nat) (stmt : nat) : infer_outcome :=
  if decide (stmt ∈ path) then mkOutcome [] false
  else default (mkOutcome [] true) (inferences g !! stmt).

(** Modelled from the spec: [copy_context(context)] (module [infutils])
    gives a fresh context when there is none and otherwise one with
    the same lookups in progress. *)
Definition copy_context (context : option (list nat)) : option (list nat) :=
  Some (default [] context).

Module ClassNG.

(** [ClassNG.ancestors]: the base classes in prefixed depth-first
    order.  The result [None] is "out of fuel"; the [try ... except
    InferenceError: continue] makes the [raises] flag of an inference
    irrelevant.  The argument [context] is [None] or the expressions in
    progress in the context passed by the caller. *)
Fixpoint ancestors (fuel : nat) (g : Graph) (recurs : bool)
    (context : option (list nat)) (self : nat) : option (list nat) :=
  match fuel with
  | O => None
  | S fuel' =>
    (* if context is None: context = InferenceContext() *)
    let path := default [] context in
    mjoin <$> mapM (fun stmt =>
      mjoin <$> mapM (fun baseobj =>
        match baseobj with
        | Node (ClassN c) =>
          if decide (c = self) then Some []
          else if recurs then
            grandpas ← ancestors fuel' g true (Some (stmt :: path)) c;
            Some (c :: filter (fun grandpa => grandpa ≠ self) grandpas)
          else Some [c]
        | _ => Some []
        end) (yielded (infer g path stmt))) (bases_of g self)
  end.

(** What a non-recursive [ancestors] generator hands to its consumer:
    the yielded class together with the base expression whose inference
    is suspended, hence still in progress, while the consumer runs. *)
Definition direct_ancestors (g : Graph) (path : list nat) (self : nat)
    : list (nat * nat) :=
  stmt ← bases_of g self;
  omap (fun baseobj =>
          match baseobj with
          | Node (ClassN c) =>
            if decide (c = self) then None else Some (stmt, c)
          | _ => None
          end) (yielded (infer g path stmt)).

(** [ClassNG._newstyle_impl]; the memoisation in [_newstyle] is not
    modelled, the cached flag of the graph is read. *)
Fixpoint _newstyle_impl (fuel : nat) (g : Graph)
    (context : option (list nat)) (self : nat) : option bool :=
  match fuel with
  | O => None
  | S fuel' =>
    let path := default [] context in
    match classes g !! self ≫= c_newstyle with
    | Some b => Some b
    | None =>
      (fix loop (bases : list (nat * nat)) : option bool :=
         match bases with
         | [] => Some false
         | (stmt, base) :: rest =>
           b ← _newstyle_impl fuel' g (Some (stmt :: path)) base;
           if b : bool then Some true else loop rest
         end) (direct_ancestors g path self)
    end
  end.

Definition special_attributes : list string :=
  ["__name__"; "__doc__"; "__dict__"; "__module__"; "__bases__"; "__mro__"].

(** The loop [values += classnode.getattr(name, context)] with its
    [except NotFoundError: continue]. *)
Fixpoint gather (values : list attr_node) (rs : list (res (list attr_node)))
    : res (list attr_node) :=
  match rs with
  | [] => Ok values
  | Ok l :: rs' => gather (values ++ l) rs'
  | Raise NotFoundError :: rs' => gather values rs'
  | Raise e :: _ => Raise e
  end.

(** [ClassNG.getattr].  A caller that passes no context gets a fresh
    one in each call of [ancestors]; a caller that passes one shares it
    with the lookups on the base classes. *)
Fixpoint getattr (fuel : nat) (g : Graph) (context : option (list nat))
    (self : nat) (name : string) : option (res (list attr_node)) :=
  match fuel with
  | O => None
  | S fuel' =>
    let values :=
      Existing <$> default [] (locals_of g (InClass self) !! name) in
    if decide (name ∈ special_attributes) then
      if decide (name = "__module__") then
        Some (Ok (SynthConst (CStr (root_name g (InClass self))) :: values))
      else if decide (name = "__bases__") then
        bases ← ancestors fuel g false context self;
        Some (Ok (SynthConst (CClasses bases) :: values))
      else
        newstyle ← (if decide (name = "__mro__")
                    then _newstyle_impl fuel g None self else Some false);
        if newstyle : bool then
          mro ← ancestors fuel g true context self;
          Some (Ok (SynthConst (CClasses mro) :: values))
        else Some (std_special_attributes g (InClass self) name true)
    else
      rs ← mapM (fun '(stmt, classnode) =>
                   getattr fuel' g (cons stmt <$> context) classnode name)
                (direct_ancestors g (default [] context) self);
      match gather values rs with
      | Ok [] => Some (Raise NotFoundError)
      | r => Some r
      end
  end.

(** [ClassNG.has_dynamic_getattr]. *)
Definition has_dynamic_getattr (fuel : nat) (g : Graph)
    (context : option (list nat)) (self : nat) : option (res bool) :=
  if decide (scope_name g (InClass self) = "Values"
             /\ root_name g (InClass self) = "optparse") then Some (Ok true)
  else
    r ← getattr fuel g context self "__getattr__";
    match r with
    | Ok _ => Some (Ok true)
    | Raise NotFoundError =>
      r' ← getattr fuel g context self "__getattribute__";
      match r' with
      | Ok [] => Some (Raise IndexError)
      | Ok (Existing getattribute :: _) =>
        Some (Ok (bool_decide
                    (root_name g (node_frame getattribute) <> "__builtin__")))
      | Ok (_ :: _) => Some (Raise AttributeError)
      | Raise NotFoundError => Some (Ok false)
      | Raise e => Some (Raise e)
      end
    | Raise e => Some (Raise e)
    end.

(** [ClassNG.igetattr].  [_infer_stmts] (module [infutils]) is not part
    of the sources at hand: it is a parameter, giving for the nodes found
    by [getattr] the candidates it yields and whether it ends with an
    [InferenceError]. *)
Definition igetattr (_infer_stmts : list attr_node -> infer_outcome)
    (fuel : nat) (g : Graph) (context : option (list nat)) (self : nat)
    (name : string) : option (generated attr_value) :=
  let context := copy_context context in
  r ← getattr fuel g context self name;
  match r with
  | Ok stmts =>
    let o := _infer_stmts stmts in
    ys ← mapM (fun infered =>
                 match infered with
                 | Instance proxied | BuiltinInst proxied =>
                   (* yield YES object instead of descriptors when necessary *)
                   d ← getattr fuel g context proxied "__get__";
                   match d with
                   | Raise NotFoundError => Some (Ok (Inf infered))
                   | Ok _ => Some (Ok (Inf YES))
                   | Raise e => Some (Raise e)
                   end
                 | _ => Some (Ok (function_to_method g infered self))
                 end) (yielded o);
    Some (generate ys (if raises o then Some InferenceError else None))
  | Raise NotFoundError =>
    if negb (String.prefix "__" name) then
      dyn ← has_dynamic_getattr fuel g context self;
      match dyn with
      | Ok true => Some (mkGenerated [Inf YES] None)
      | Ok false => Some (mkGenerated [] (Some InferenceError))
      | Raise e => Some (mkGenerated [] (Some e))
      end
    else Some (mkGenerated [] (Some InferenceError))
  | Raise e => Some (mkGenerated [] (Some e))
  end.

End ClassNG.

(** ** Modules and functions as scopes *)

Module ModuleNG.

Definition special_attributes : list string :=
  ["__name__"; "__doc__"; "__file__"; "__path__"; "__dict__"].

(** Modelled from the spec: [import_module(name, relative_only=True)]
    goes through the module resolution collaborator,
    "resolve_module(name, relative_to, level) -> module graph or
    failure"; [m_submodules] records the relative imports that succeed. *)
Definition import_module (g : Graph) (self : nat) (name : string)
    : option nat :=
  modules g !! self ≫= fun md => m_submodules md !! name.

(** The body of [ModuleNG.getattr], before [remove_nodes] wraps it. *)
Definition getattr_body (g : Graph) (self : nat) (name : string)
    : res (list attr_node) :=
  let locals := locals_of g (InModule self) in
  let package := default false (m_package <$> modules g !! self) in
  let fallback :=
    match (if package then import_module g self name else None) with
    | Some sub => Ok [Existing (ModuleN sub)]
    | None => Raise NotFoundError
    end in
  if decide (name ∈ special_attributes) then
    if decide (name = "__file__") then
      Ok (cf (modules g !! self ≫= m_file)
            :: (Existing <$> default [] (locals !! name)))
    else if bool_decide (name = "__path__") && package then
      Ok (SynthList :: (Existing <$> default [] (locals !! name)))
    else std_special_attributes g (InModule self) name true
  else
    match locals !! name with
    | Some l => Ok (Existing <$> l)
    | None => fallback
    end.

(** [getattr = remove_nodes(getattr, DelName)]. *)
Definition getattr (g : Graph) (self : nat) (name : string)
    : res (list attr_node) :=
  remove_nodes DelName (getattr_body g self name).

End ModuleNG.

Module FunctionNG.

Definition special_attributes : list string :=
  ["__name__"; "__doc__"; "__dict__"].

(** [FunctionNG.getattr]. *)
Definition getattr (g : Graph) (self : nat) (name : string)
    : res (list attr_node) :=
  if decide (name = "__module__") then
    Ok [SynthConst (CStr (root_name g (InFunction self)))]
  else std_special_attributes g (InFunction self) name false.

End FunctionNG.

(** ** Updating the graph *)

Definition set_c_locals (l : gmap string (list node)) (c : ClassNode) :=
  mkClass (c_name c) (c_doc c) (c_root c) (c_bases c) l
          (c_instance_attrs c) (c_newstyle c).

Definition set_c_instance_attrs (l : gmap string (list node)) (c : ClassNode) :=
  mkClass (c_name c) (c_doc c) (c_root c) (c_bases c) (c_locals c) l
          (c_newstyle c).

Definition set_f_locals (l : gmap string (list node)) (f : FunctionNode) :=
  mkFunction (f_name f) (f_doc f) (f_root f) (f_type f) (f_decorators f) l.

Definition set_m_locals (l : gmap string (list node)) (m : ModuleNode) :=
  mkModule (m_name m) (m_doc m) (m_file m) (m_package m) l (m_submodules m).

Definition set_classes (cs : gmap nat ClassNode) (g : Graph) :=
  mkGraph cs (functions g) (modules g) (inferences g).

Definition set_functions (fs : gmap nat FunctionNode) (g : Graph) :=
  mkGraph (classes g) fs (modules g) (inferences g).

Definition set_modules (ms : gmap nat ModuleNode) (g : Graph) :=
  mkGraph (classes g) (functions g) ms (inferences g).

(** The two kinds of dictionaries that bind names to nodes. *)
Inductive table_ref :=
  | InstanceAttrs (c : nat)
  | Locals (s : scope_ref).

#[global] Instance table_ref_eq_dec : EqDecision table_ref.
Proof. solve_decision. Defined.

Definition has_table (g : Graph) (t : table_ref) : bool :=
  match t with
  | InstanceAttrs c | Locals (InClass c) => bool_decide (is_Some (classes g !! c))
  | Locals (InModule m) => bool_decide (is_Some (modules g !! m))
  | Locals (InFunction f) => bool_decide (is_Some (functions g !! f))
  end.

Definition table (g : Graph) (t : table_ref) : gmap string (list node) :=
  match t with
  | InstanceAttrs c => default ∅ (c_instance_attrs <$> classes g !! c)
  | Locals s => locals_of g s
  end.

Definition set_table (g : Graph) (t : table_ref)
    (d : gmap string (list node)) : Graph :=
  match t with
  | InstanceAttrs c =>
    set_classes (alter (set_c_instance_attrs d) c (classes g)) g
  | Locals (InClass c) => set_classes (alter (set_c_locals d) c (classes g)) g
  | Locals (InModule m) => set_modules (alter (set_m_locals d) m (modules g)) g
  | Locals (InFunction f) =>
    set_functions (alter (set_f_locals d) f (functions g)) g
  end.

(** Modelled from the spec: [scope.set_local(name, stmt)] (module
    [lookup], not part of the sources at hand); "locals bindings are
    append-only during rebuilding; later bindings of the same name do
    not remove earlier ones". *)
Definition set_local (g : Graph) (s : scope_ref) (name : string) (n : node)
    : Graph :=
  let locals := locals_of g s in
  set_table g (Locals s) (<[name := default [] (locals !! name) ++ [n]]> locals).

(** ** The rebuilder *)

Module RebuildVisitor.

(** [decorator_expr.name in ('classmethod', 'staticmethod')] for a
    decorator that is a [Name]; the type it gives. *)
Definition decorator_type (decorator_expr : expr) : option role :=
  match decorator_expr with
  | Name name =>
    if decide (name = "classmethod") then Some RClassmethod
    else if decide (name = "staticmethod") then Some RStaticmethod
    else None
  | _ => None
  end.

(** [RebuildVisitor.visit_function], after [_visit_function] has rebuilt
    the children: [newnode] is the fresh function node (with the default
    type 'function' and its rebuilt decorators), [fid] its identity,
    [frame] is [newnode.parent.frame()].  The [_global_names] stack is
    pushed before and popped after [_visit_function] and is the same on
    entry and exit. *)
Definition visit_function (g : Graph) (fid : nat) (newnode : FunctionNode)
    (name : string) (frame : scope_ref) : FunctionNode * Graph :=
  let type0 := f_type newnode in
  let type1 :=
    match frame with
    | InClass _ =>
      if decide (name = "__new__") then RClassmethod else RMethod
    | _ => type0
    end in
  let type2 :=
    match f_decorators newnode with
    | Some nodes =>
      foldl (fun type decorator_expr =>
               default type (decorator_type decorator_expr)) type1 nodes
    | None => type1
    end in
  let newnode' :=
    mkFunction name (f_doc newnode) (f_root newnode) type2
               (f_decorators newnode) (f_locals newnode) in
  let g' := set_functions (<[fid := newnode']> (functions g)) g in
  (newnode', set_local g' frame name (FunctionN fid)).

(** A fresh [Function()] node, as [_visit_function] leaves it. *)
Definition new_function (root : nat) (doc : option string)
    (decorators : option (list expr)) (locals : gmap string (list node))
    : FunctionNode :=
  mkFunction "" doc root RFunction decorators locals.

(** An [AssAttr] node queued for the deferred resolution: its identity,
    the receiver expression, the attribute name and its frame. *)
Record AssAttrNode := mkAssAttr {
  aa_id : nat;
  aa_expr : nat;
  aa_attrname : string;
  aa_frame : scope_ref
}.

Definition assattr_node (a : AssAttrNode) : node :=
  StmtN AssAttr (aa_id a) (aa_frame a).

(** The choice of [iattrs] for one inferred candidate; [None] is
    [continue]: the unknown sentinel, a builtin value, or a candidate
    without the dictionary ([AttributeError]). *)
Definition select_iattrs (g : Graph) (infered : inferred) : option table_ref :=
  match infered with
  | YES => None
  | Instance proxied =>
    if has_table g (InstanceAttrs proxied)
    then Some (InstanceAttrs proxied) else None
  | ConstInst _ _ | BuiltinInst _ => None
  | Node (StmtN _ _ _) => None
  | Node scope =>
    if has_table g (Locals (node_frame scope))
    then Some (Locals (node_frame scope)) else None
  end.

(** [frame.name == '__init__' and values and not
    values[0].frame().name == '__init__'] *)
Definition init_first (g : Graph) (frame : scope_ref) (values : list node)
    : bool :=
  bool_decide (scope_name g frame = "__init__")
  && match values with
     | [] => false
     | first :: _ =>
       negb (bool_decide (scope_name g (node_frame first) = "__init__"))
     end.

(** The body of the loop of [delayed_assattr] for one candidate. *)
Definition delayed_assattr_candidate (node : AssAttrNode) (g : Graph)
    (infered : inferred) : Graph :=
  match select_iattrs g infered with
  | None => g
  | Some iattrs =>
    let values := default [] (table g iattrs !! aa_attrname node) in
    if decide (assattr_node node ∈ values) then g
    else if init_first g (aa_frame node) values then
      set_table g iattrs
        (<[aa_attrname node := assattr_node node :: values]> (table g iattrs))
    else
      set_table g iattrs
        (<[aa_attrname node := values ++ [assattr_node node]]> (table g iattrs))
  end.

Section DelayedAssattr.

(** [node.expr.infer()]: the inference of the receiver expression in
    the current graph.  The inference engine is not part of the sources
    at hand: it is a parameter, read when the loop is entered. *)
Variable expr_infer : Graph -> nat -> infer_outcome.

Definition receiver_candidates (g : Graph) (node : AssAttrNode)
    : list inferred :=
  yielded (expr_infer g (aa_expr node)).

(** [RebuildVisitor.delayed_assattr]: an [InferenceError] ends the loop
    silently, so only the yielded candidates matter. *)
Definition delayed_assattr (g : Graph) (node : AssAttrNode) : Graph :=
  foldl (delayed_assattr_candidate node) g (receiver_candidates g node).

End DelayedAssattr.

End RebuildVisitor.

(** ** Rebuilding a [compiler.ast] tree *)

Module TreeRebuilder.

(** Line information of a node; [None] in [fromlineno] or [tolineno]
    is "the attribute is not set", in [lineno] it is the value [None]. *)
Record lineinfo := mkLines {
  lineno : option nat;
  fromlineno : option nat;
  tolineno : option nat
}.

(** What a [compiler.ast] node built without arguments carries. *)
Definition no_lines : lineinfo := mkLines None None None.

Inductive bitop := Bitand | Bitor | Bitxor.
Inductive arithop :=
  | Add | Div | FloorDiv | Mod | Mul | Power | Sub | LeftShift | RightShift.

(** [BinOp_OP_CLASSES] *)
Definition bitop_symbol (cls : bitop) : string :=
  match cls with Bitand => "&" | Bitor => "|" | Bitxor => "^" end.

Definition arithop_symbol (cls : arithop) : string :=
  match cls with
  | Add => "+" | Div => "/" | FloorDiv => "//" | Mod => "%" | Mul => "*"
  | Power => "**" | Sub => "-" | LeftShift => "<<" | RightShift => ">>"
  end.

(** The [compiler.ast] nodes that are rebuilt here. *)
Inductive cnode :=
  | CName (li : lineinfo) (name : string)
  | CConst (li : lineinfo) (value : const_value)
  | CPass (li : lineinfo)
  | CAssName (li : lineinfo) (name : string) (flags : string)
  | CDiscard (li : lineinfo) (e : cnode)
  | CAugAssign (li : lineinfo) (target : cnode) (op : string) (e : cnode)
  | CBitop (li : lineinfo) (cls : bitop) (nodes : list cnode)
  | CArith (li : lineinfo) (cls : arithop) (left right : cnode)
  | CIf (li : lineinfo) (tests : list (cnode * list cnode))
        (else_ : option (list cnode)).

(** The astng nodes they become.  A child is [None] where [visit]
    returned [None]. *)
Inductive anode :=
  | NName (li : lineinfo) (name : string)
  | NConst (li : lineinfo) (value : const_value)
  | NPass (li : lineinfo)
  | NAssName (li : lineinfo) (id : nat) (name : string)
  | NDelName (li : lineinfo) (id : nat) (name : string)
  | NDelete (li : lineinfo) (targets : list (option anode))
  | NDiscard (li : lineinfo) (value : option anode)
  | NAugAssign (li : lineinfo) (target : option anode) (op : string)
               (value : option anode)
  | NBinOp (li : lineinfo) (op : string) (left right : option anode)
  | NIf (li : lineinfo) (blockstart_tolineno : option nat)
        (test : option anode) (body orelse : list (option anode)).

Definition lines_of (n : cnode) : lineinfo :=
  match n with
  | CName li _ | CConst li _ | CPass li | CAssName li _ _ | CDiscard li _
  | CAugAssign li _ _ _ | CBitop li _ _ | CArith li _ _ _ | CIf li _ _ => li
  end.

Inductive asscontext_t := Ass | Aug | Del | Dis.

(** The state of the visitor: [asscontext], the [_global_names] stack
    (its top is the last element), the graph whose [locals] are being
    filled, and the identity of the next fresh node. *)
Record RebuildState := mkState {
  asscontext : option asscontext_t;
  _global_names : list (gmap string (list nat));
  graph : Graph;
  next_id : nat
}.

Definition M (A : Type) : Type := RebuildState -> res (A * RebuildState).

Definition ret {A} (a : A) : M A := fun st => Ok (a, st).
Definition raise {A} (e : exn) : M A := fun _ => Raise e.
Definition bind {A B} (m : M A) (k : A -> M B) : M B :=
  fun st => match m st with
            | Ok (a, st') => k a st'
            | Raise e => Raise e
            end.

#[global] Instance M_ret : MRet M := @ret.
#[global] Instance M_bind : MBind M := fun A B k m => bind m k.

Definition set_asscontext (c : option asscontext_t) : M unit :=
  fun st => Ok (tt, mkState c (_global_names st) (graph st) (next_id st)).

Definition get_asscontext : M (option asscontext_t) :=
  fun st => Ok (asscontext st, st).

(** A fresh node object. *)
Definition fresh : M nat :=
  fun st => Ok (next_id st,
                mkState (asscontext st) (_global_names st) (graph st)
                        (S (next_id st))).

(** [RebuildVisitor._save_assignment]: [node] is the new [AssName] or
    [DelName] node, [frame] the scope that [node.parent.set_local]
    reaches. *)
Definition _save_assignment (frame : scope_ref) (k : node_kind) (id : nat)
    (name : string) : M unit :=
  fun st =>
    let node := StmtN k id frame in
    let scope :=
      match last (_global_names st) with
      | Some names =>
        if decide (is_Some (names !! name))
        then InModule (root_of (graph st) frame) else frame
      | None => frame
      end in
    Ok (tt, mkState (asscontext st) (_global_names st)
                    (set_local (graph st) scope name node) (next_id st)).

(** [visit_delname] *)
Definition visit_delname (frame : scope_ref) (li : lineinfo) (name : string)
    : M (option anode) :=
  id ← fresh;
  _save_assignment frame DelName id name;;
  ret (Some (NDelName li id name)).

(** [visit_assname].  [_check_del_node(node, parent, [node])] visits the
    very same node again, this time with [asscontext] set to "Del", which
    leads to [visit_delname]: the second visit is written out. *)
Definition visit_assname (frame : scope_ref) (li : lineinfo) (name : string)
    (flags : string) : M (option anode) :=
  ctx ← get_asscontext;
  match ctx with
  | None =>
    set_asscontext (Some Del);;
    target ← visit_delname frame li name;
    set_asscontext None;;
    ret (Some (NDelete li [target]))
  | Some Del => visit_delname frame li name
  | Some Dis => ret None
  | Some _ =>
    if decide (flags = "OP_ASSIGN") then
      id ← fresh;
      _save_assignment frame AssName id name;;
      ret (Some (NAssName li id name))
    else raise AssertionError
  end.

(** [CONST_NAME_TRANSFORMS] *)
Definition CONST_NAME_TRANSFORMS (name : string) : option const_value :=
  if decide (name = "None") then Some CNone
  else if decide (name = "True") then Some (CBool true)
  else if decide (name = "False") then Some (CBool false)
  else None.

(** [visit_name] *)
Definition visit_name (li : lineinfo) (name : string) : M (option anode) :=
  match CONST_NAME_TRANSFORMS name with
  | Some v => ret (Some (NConst li v))
  | None =>
    ctx ← get_asscontext;
    match ctx with
    | Some Aug => id ← fresh; ret (Some (NAssName li id name))
    | _ => ret (Some (NName li name))
    end
  end.

(** The operands of a chained bit operation, last operand first, each
    one as the visit that rebuilds it.  [visit_binop] takes
    [node.nodes[-1]] as the right operand; with more than two operands
    the left operand is the visit of the on-the-fly node
    [bitop(node.nodes[:-1])], which has no line information and goes
    through [visit_binop] again, otherwise it is the visit of
    [node.nodes[0]]. *)
Fixpoint visit_bitop (li : lineinfo) (op : string)
    (operands_rev : list (M (option anode))) : M (option anode) :=
  match operands_rev with
  | [] => raise IndexError
  | final :: front =>
    rhs ← final;
    lhs ← match front with
           | [] => final
           | [first] => first
           | _ => visit_bitop no_lines op front
           end;
    ret (Some (NBinOp li op lhs rhs))
  end.

(** The line bookkeeping of a synthesized [If]: [_set_infos(node,
    subnode, subparent)], then [fromlineno], [tolineno] and
    [blockstart_tolineno] read from [node.tests[1]]. *)
Definition elif_lines (li : lineinfo) (tests : list (cnode * list cnode))
    : M (lineinfo * option nat) :=
  match tests !! 1 with
  | None => raise IndexError
  | Some (test, body) =>
    match fromlineno (lines_of test) with
    | None => raise AttributeError
    | Some from =>
      match last body with
      | None => raise IndexError
      | Some stmt =>
        match tolineno (lines_of stmt), tolineno (lines_of test) with
        | Some to, Some blockstart =>
          ret (mkLines (lineno li) (Some from) (Some to), Some blockstart)
        | _, _ => raise AttributeError
        end
      end
    end
  end.

(** [visit], with the [visit_*] methods of the nodes above; [frame] is
    the frame of [parent]. *)
Fixpoint visit (frame : scope_ref) (node : cnode) {struct node}
    : M (option anode) :=
  let visit_all :=
    fix visit_all (children : list cnode) : M (list (option anode)) :=
      match children with
      | [] => ret []
      | child :: rest =>
        c ← visit frame child;
        cs ← visit_all rest;
        ret (c :: cs)
      end in
  match node with
  | CName li name => visit_name li name
  | CConst li value => ret (Some (NConst li value))
  | CPass li => ret (Some (NPass li))
  | CAssName li name flags => visit_assname frame li name flags
  | CDiscard li e =>
    match lineno li with
    | None => ret None
    | Some _ =>
      set_asscontext (Some Dis);;
      value ← visit frame e;
      set_asscontext None;;
      ret (Some (NDiscard li value))
    end
  | CAugAssign li target op e =>
    set_asscontext (Some Aug);;
    target' ← visit frame target;
    set_asscontext None;;
    value ← visit frame e;
    ret (Some (NAugAssign li target' op value))
  | CBitop li cls nodes =>
    visit_bitop li (bitop_symbol cls) (rev (map (visit frame) nodes))
  | CArith li cls lhs rhs =>
    lhs' ← visit frame lhs;
    rhs' ← visit frame rhs;
    ret (Some (NBinOp li (arithop_symbol cls) lhs' rhs'))
  | CIf li tests else_ =>
    match tests with
    | [] => raise IndexError
    | (test, body) :: elifs =>
      test' ← visit frame test;
      body' ← visit_all body;
      orelse ←
        (fix visit_elifs (l : list (cnode * list cnode))
           : M (list (option anode)) :=
           match l with
           | [] =>
             (* the last subnode gets the else block *)
             match else_ with
             | None => ret []
             | Some stmts => visit_all stmts
             end
           | (test, body) :: rest =>
             lines ← elif_lines li tests;
             test' ← visit frame test;
             body' ← visit_all body;
             orelse ← visit_elifs rest;
             ret [Some (NIf lines.1 lines.2 test' body' orelse)]
           end) elifs;
      ret (Some (NIf li None test' body' orelse))
    end
  end.

End TreeRebuilder.

(** ** Attribute lookup on any scope *)

(** [scope.getattr(name)] with a fresh context, dispatched on the class
    of the scope ([get_attribute] in the specification). *)
Definition get_attribute (fuel : nat) (g : Graph) (s : scope_ref)
    (name : string) : option (res (list attr_node)) :=
  match s with
  | InModule m => Some (ModuleNG.getattr g m name)
  | InClass c => ClassNG.getattr fuel g None c name
  | InFunction f => Some (FunctionNG.getattr g f name)
  end.

(** The names that [getattr] answers by itself for each kind of scope. *)
Definition reserved_names (s : scope_ref) : list string :=
  match s with
  | InModule _ => ModuleNG.special_attributes
  | InClass _ => ClassNG.special_attributes
  | InFunction _ => "__module__" :: FunctionNG.special_attributes
  end.

(** ** Definitions used by the statements *)

(** The expression nodes used as a base by some class of the graph. *)
Definition base_nodes (g : Graph) : gset nat :=
  list_to_set (mjoin ((fun kc => c_bases kc.2) <$> map_to_list (classes g))).

(** The class candidates among the results of an inference, and the
    classes a class declares as its bases. *)
Definition class_candidates (o : infer_outcome) : list nat :=
  omap (fun i => match i with Node (ClassN c) => Some c | _ => None end)
       (yielded o).

Definition declared_bases (g : Graph) (c : nat) : list nat :=
  stmt ← bases_of g c;
  class_candidates (default (mkOutcome [] true) (inferences g !! stmt)).

(** Two classes [X(Y)] and [Y(X)]: class [0] has the base expression
    [10], which infers to class [1]; class [1] has the base expression
    [11], which infers to class [0]. *)
Definition cyclic_pair : Graph :=
  mkGraph
    (<[0 := mkClass "X" None 0 [10] ∅ ∅ None]>
       (<[1 := mkClass "Y" None 0 [11] ∅ ∅ None]> ∅))
    ∅ ∅
    (<[10 := mkOutcome [Node (ClassN 1)] false]>
       (<[11 := mkOutcome [Node (ClassN 0)] false]> ∅)).

(** The type named by the last decorator that is the bare name
    [classmethod] or [staticmethod]. *)
Definition last_decorator_type (nodes : list expr) : option role :=
  last (omap RebuildVisitor.decorator_type nodes).

(** A class [C] (identity 0) in module 0, with an empty body so far. *)
Definition one_class : Graph :=
  mkGraph (<[0 := mkClass "C" None 0 [] ∅ ∅ None]> ∅) ∅
          (<[0 := mkModule "m" None None false ∅ ∅]> ∅) ∅.

(** A line span [from]-[to] on a node whose [lineno] is [from]. *)
Definition span (from to : nat) : TreeRebuilder.lineinfo :=
  TreeRebuilder.mkLines (Some from) (Some from) (Some to).

(** The visitor at the top of module 0 of [one_class], outside any
    assignment, with nothing declared global. *)
Definition module_level : TreeRebuilder.RebuildState :=
  TreeRebuilder.mkState None [] one_class 0.

(** [if a: pass / elif b: pass / elif c: pass], one line each, from
    line 1 to line 6. *)
Definition if_elif_elif : TreeRebuilder.cnode :=
  TreeRebuilder.CIf (span 1 6)
    [(TreeRebuilder.CName (span 1 1) "a", [TreeRebuilder.CPass (span 2 2)]);
     (TreeRebuilder.CName (span 3 3) "b", [TreeRebuilder.CPass (span 4 4)]);
     (TreeRebuilder.CName (span 5 5) "c", [TreeRebuilder.CPass (span 6 6)])]
    None.

(** The synthesized conditional of the [i]-th elif ([i] from 0): its
    line information and block start. *)
Fixpoint elif_node (i : nat) (orelse : list (option TreeRebuilder.anode))
    : option (TreeRebuilder.lineinfo * option nat) :=
  match orelse with
  | [Some (TreeRebuilder.NIf li blockstart _ _ orelse')] =>
    match i with
    | O => Some (li, blockstart)
    | S i' => elif_node i' orelse'
    end
  | _ => None
  end.

Definition rebuilt_orelse
    (r : res (option TreeRebuilder.anode * TreeRebuilder.RebuildState))
    : list (option TreeRebuilder.anode) :=
  match r with
  | Ok (Some (TreeRebuilder.NIf _ _ _ _ orelse), _) => orelse
  | _ => []
  end.

(** The visitor at the top of the body of class [C] of [one_class]. *)
Definition in_class_body : TreeRebuilder.RebuildState :=
  TreeRebuilder.mkState None [] one_class 0.

(** How [igetattr] views one candidate: an instance other than a
    constant becomes the unknown sentinel when [getattr('__get__')] on
    its class succeeds and stays itself when that raises; any other
    candidate goes through [function_to_method]. *)
Definition descriptor_view (fuel : nat) (g : Graph)
    (context : option (list nat)) (self : nat) (infered : inferred)
    (v : attr_value) : Prop :=
  match infered with
  | Instance proxied | BuiltinInst proxied =>
    match ClassNG.getattr fuel g context proxied "__get__" with
    | Some (Ok _) => v = Inf YES
    | Some (Raise _) => v = Inf infered
    | None => False
    end
  | _ => v = function_to_method g infered self
  end.

(** The class of an instance candidate that is not a constant. *)
Definition instance_class (infered : inferred) : option nat :=
  match infered with
  | Instance proxied | BuiltinInst proxied => Some proxied
  | _ => None
  end.

(** Three classes in module 0: [C] (identity 0) binds [attr] and defines
    [__getattr__]; [Desc] (identity 1) defines [__get__]; [Plain]
    (identity 2) defines nothing. *)
Definition descriptor_graph : Graph :=
  mkGraph
    (<[0 := mkClass "C" None 0 []
              (<["attr" := [StmtN AssName 7 (InClass 0)]]>
                 (<["__getattr__" := [FunctionN 4]]> ∅)) ∅ None]>
       (<[1 := mkClass "Desc" None 0 []
                 (<["__get__" := [FunctionN 3]]> ∅) ∅ None]>
          (<[2 := mkClass "Plain" None 0 [] ∅ ∅ None]> ∅)))
    (<[3 := mkFunction "__get__" None 0 RMethod None ∅]>
       (<[4 := mkFunction "__getattr__" None 0 RMethod None ∅]> ∅))
    (<[0 := mkModule "m" None None false ∅ ∅]> ∅)
    ∅.

(** An inference of [attr] that yields a [Desc] instance, a [Plain]
    instance and a string constant. *)
Definition attr_candidates (stmts : list attr_node) : infer_outcome :=
  mkOutcome [Instance 1; Instance 2; ConstInst (CStr "s") 2] false.


(** A candidate that is an instance of a builtin value kind: a strict
    subclass of the instance proxy. *)
Definition builtin_value (infered : inferred) : bool :=
  match infered with
  | ConstInst _ _ | BuiltinInst _ => true
  | _ => false
  end.

(** A class [C] (identity 0) whose [instance_attrs] already has [x],
    assigned in the method [method] (identity 2); [__init__] has
    identity 1. *)
Definition class_with_attr : Graph :=
  mkGraph
    (<[0 := mkClass "C" None 0 [] ∅
              (<["x" := [StmtN AssAttr 20 (InFunction 2)]]> ∅) None]> ∅)
    (<[1 := mkFunction "__init__" None 0 RMethod None ∅]>
       (<[2 := mkFunction "method" None 0 RMethod None ∅]> ∅))
    (<[0 := mkModule "m" None None false ∅ ∅]> ∅)
    ∅.

(** [self.x = ...] in [__init__]: node 21, receiver expression 9. *)
Definition init_assattr : RebuildVisitor.AssAttrNode :=
  RebuildVisitor.mkAssAttr 21 9 "x" (InFunction 1).

(** The receiver infers to an instance of [C], twice, then to a string
    constant and to the class [C] itself. *)
Definition receiver_inference (g : Graph) (e : nat) : infer_outcome :=
  mkOutcome [Instance 0; Instance 0; ConstInst (CStr "s") 0; Node (ClassN 0)]
            true.

(** The node that rebuilding [del name] gives: a [Delete] statement
    around the [DelName] target outside any assignment context, the
    [DelName] target alone when a deletion is already being rebuilt. *)
Definition deletion_node (ctx : option TreeRebuilder.asscontext_t)
    (li : TreeRebuilder.lineinfo) (id : nat) (name : string)
    : TreeRebuilder.anode :=
  match ctx with
  | None => TreeRebuilder.NDelete li [Some (TreeRebuilder.NDelName li id name)]
  | Some _ => TreeRebuilder.NDelName li id name
  end.

(** The dictionary that holds the attributes assigned through a
    candidate: the [instance_attrs] of its class for an instance, the
    [locals] for a class, a module or a function. *)
Definition candidate_dictionary (infered : inferred) : option table_ref :=
  match infered with
  | Instance proxied => Some (InstanceAttrs proxied)
  | Node (ModuleN m) => Some (Locals (InModule m))
  | Node (ClassN c) => Some (Locals (InClass c))
  | Node (FunctionN f) => Some (Locals (InFunction f))
  | _ => None
  end.

(** The module is named [__init__]; the class [C] (identity 0) has [x]
    in its [instance_attrs], assigned in the method [method] (identity
    2). *)
Definition module_named_init : Graph :=
  mkGraph
    (<[0 := mkClass "C" None 0 [] ∅
              (<["x" := [StmtN AssAttr 20 (InFunction 2)]]> ∅) None]> ∅)
    (<[2 := mkFunction "method" None 0 RMethod None ∅]> ∅)
    (<[0 := mkModule "__init__" None None false ∅ ∅]> ∅)
    ∅.

(** [c.x = ...] at the top of the module: node 22, receiver
    expression 9. *)
Definition toplevel_assattr : RebuildVisitor.AssAttrNode :=
  RebuildVisitor.mkAssAttr 22 9 "x" (InModule 0).




(** * Further definitions *)

(** A node of the graph, as opposed to one synthesized by a special
    attribute. *)
Definition is_existing (n : attr_node) : Prop :=
  match n with Existing _ => True | _ => False end.

(** [[self.visit(child, newnode) for child in children]], as [visit]
    does it for the bodies of an [If]. *)
Definition visit_stmts (frame : scope_ref)
    : list TreeRebuilder.cnode
      -> TreeRebuilder.M (list (option TreeRebuilder.anode)) :=
  fix visit_all (children : list TreeRebuilder.cnode)
      : TreeRebuilder.M (list (option TreeRebuilder.anode)) :=
    match children with
    | [] => TreeRebuilder.ret []
    | child :: rest =>
      c ← TreeRebuilder.visit frame child;
      cs ← visit_all rest;
      TreeRebuilder.ret (c :: cs)
    end.

(** [_init_else_node]: the rebuilt else block, empty when there is
    none. *)
Definition _init_else_node (frame : scope_ref)
    (else_ : option (list TreeRebuilder.cnode))
    : TreeRebuilder.M (list (option TreeRebuilder.anode)) :=
  match else_ with
  | None => TreeRebuilder.ret []
  | Some stmts => visit_stmts frame stmts
  end.

(** The [orelse] reached by going [k] conditionals down a chain in
    which every [orelse] holds exactly the next conditional. *)
Fixpoint chained_orelse (k : nat) (orelse : list (option TreeRebuilder.anode))
    : option (list (option TreeRebuilder.anode)) :=
  match k with
  | O => Some orelse
  | S k' =>
    match orelse with
    | [Some (TreeRebuilder.NIf _ _ _ _ orelse')] => chained_orelse k' orelse'
    | _ => None
    end
  end.

(** What a visit leaves alone: the [_global_names] stack, the
    identities already given out, and the assignment context when the
    visit starts outside any. *)
Definition keeps_context (st st' : TreeRebuilder.RebuildState) : Prop :=
  TreeRebuilder._global_names st' = TreeRebuilder._global_names st
  /\ TreeRebuilder.next_id st <= TreeRebuilder.next_id st'
  /\ (TreeRebuilder.asscontext st = None ->
      TreeRebuilder.asscontext st' = None).

(** A computation keeps the context when each of its runs does. *)
Definition keeping {A} (m : TreeRebuilder.M A) : Prop :=
  forall st a st', m st = Ok (a, st') -> keeps_context st st'.

(** Induction on [compiler.ast] nodes, through the lists of children. *)
Section cnode_induction.

Import TreeRebuilder.

Variable P : cnode -> Prop.
Hypothesis HName : forall li name, P (CName li name).
Hypothesis HConst : forall li v, P (CConst li v).
Hypothesis HPass : forall li, P (CPass li).
Hypothesis HAssName : forall li name flags, P (CAssName li name flags).
Hypothesis HDiscard : forall li e, P e -> P (CDiscard li e).
Hypothesis HAugAssign :
  forall li target op e, P target -> P e -> P (CAugAssign li target op e).
Hypothesis HBitop : forall li cls nodes, Forall P nodes -> P (CBitop li cls nodes).
Hypothesis HArith :
  forall li cls lhs rhs, P lhs -> P rhs -> P (CArith li cls lhs rhs).
Hypothesis HIf :
  forall li tests else_,
    Forall (fun tb => P tb.1 /\ Forall P tb.2) tests ->
    from_option (Forall P) True else_ ->
    P (CIf li tests else_).

Fixpoint cnode_children_ind (n : cnode) : P n :=
  let all :=
    fix all (l : list cnode) : Forall P l :=
      match l with
      | [] => Forall_nil_2 P
      | x :: l' => Forall_cons_2 P x l' (cnode_children_ind x) (all l')
      end in
  match n with
  | CName li name => HName li name
  | CConst li v => HConst li v
  | CPass li => HPass li
  | CAssName li name flags => HAssName li name flags
  | CDiscard li e => HDiscard li e (cnode_children_ind e)
  | CAugAssign li target op e =>
    HAugAssign li target op e (cnode_children_ind target)
               (cnode_children_ind e)
  | CBitop li cls nodes => HBitop li cls nodes (all nodes)
  | CArith li cls lhs rhs =>
    HArith li cls lhs rhs (cnode_children_ind lhs) (cnode_children_ind rhs)
  | CIf li tests else_ =>
    HIf li tests else_
        ((fix tests_ind (l : list (cnode * list cnode))
            : Forall (fun tb => P tb.1 /\ Forall P tb.2) l :=
            match l with
            | [] => Forall_nil_2 _
            | (t, b) :: l' =>
              Forall_cons_2 (fun tb => P tb.1 /\ Forall P tb.2) (t, b) l'
                            (conj (cnode_children_ind t) (all b))
                            (tests_ind l')
            end) tests)
        (match else_ with
         | None => I
         | Some stmts => all stmts
         end)
  end.

End cnode_induction.

(** [if a: pass / elif b: pass / else: pass] and the node it is rebuilt
    into at the top of module 0. *)
Definition if_elif_else : TreeRebuilder.cnode :=
  TreeRebuilder.CIf (span 1 6)
    [(TreeRebuilder.CName (span 1 1) "a", [TreeRebuilder.CPass (span 2 2)]);
     (TreeRebuilder.CName (span 3 3) "b", [TreeRebuilder.CPass (span 4 4)])]
    (Some [TreeRebuilder.CPass (span 6 6)]).

Definition if_elif_else_node : TreeRebuilder.anode :=
  match TreeRebuilder.visit (InModule 0) if_elif_else module_level with
  | Ok (Some n, _) => n
  | _ => TreeRebuilder.NPass TreeRebuilder.no_lines
  end.

(** Module [m] (identity 0) in which [x] is already bound by an
    assignment (node 5). *)
Definition assigned_module : Graph :=
  mkGraph ∅ ∅
    (<[0 := mkModule "m" None None false
              (<["x" := [StmtN AssName 5 (InModule 0)]]> ∅) ∅]> ∅) ∅.

(** ** More of the rebuilder *)

(** [RebuildVisitor.visit_global]: the new [Global] node (its identity
    is returned) is recorded under each of its names in the dictionary
    on top of the [_global_names] stack; with an empty stack, at the
    module level, nothing is recorded. *)
Definition visit_global (names : list string) : TreeRebuilder.M nat :=
  fun st =>
    let newnode := TreeRebuilder.next_id st in
    let stack := TreeRebuilder._global_names st in
    let stack' :=
      alter (fun top =>
               foldl (fun top name =>
                        <[name := default [] (top !! name) ++ [newnode]]> top)
                     top names)
            (length stack - 1) stack in
    Ok (newnode,
        TreeRebuilder.mkState (TreeRebuilder.asscontext st) stack'
                              (TreeRebuilder.graph st) (S newnode)).

(** Function [f] (identity 3) at the top of module [m] (identity 0). *)
Definition one_function : Graph :=
  mkGraph ∅ (<[3 := mkFunction "f" None 0 RFunction None ∅]> ∅)
          (<[0 := mkModule "m" None None false ∅ ∅]> ∅) ∅.

(** The names of the arguments of a [compiler.ast] function: strings,
    and tuples of them for the nested patterns. *)
Inductive argspec :=
  | ArgName (name : string)
  | ArgTuple (elts : list argspec).

(** The nodes [_nodify_args] builds from them. *)
Inductive argnode :=
  | NArgName (li : TreeRebuilder.lineinfo) (id : nat) (name : string)
  | NArgTuple (li : TreeRebuilder.lineinfo) (elts : list argnode).

(** [TreeRebuilder._nodify_args], for one argument and for a list;
    [li] is the line information of [parent], which [_set_infos(parent,
    n, parent)] copies to every node. *)
Fixpoint _nodify_arg (frame : scope_ref) (li : TreeRebuilder.lineinfo)
    (arg : argspec) : TreeRebuilder.M argnode :=
  match arg with
  | ArgTuple elts =>
    elts' ← (fix nodify (values : list argspec)
               : TreeRebuilder.M (list argnode) :=
               match values with
               | [] => TreeRebuilder.ret []
               | arg :: rest =>
                 n ← _nodify_arg frame li arg;
                 res ← nodify rest;
                 TreeRebuilder.ret (n :: res)
               end) elts;
    TreeRebuilder.ret (NArgTuple li elts')
  | ArgName name =>
    id ← TreeRebuilder.fresh;
    TreeRebuilder._save_assignment frame AssName id name;;
    TreeRebuilder.ret (NArgName li id name)
  end.

Fixpoint _nodify_args (frame : scope_ref) (li : TreeRebuilder.lineinfo)
    (values : list argspec) : TreeRebuilder.M (list argnode) :=
  match values with
  | [] => TreeRebuilder.ret []
  | arg :: rest =>
    n ← _nodify_arg frame li arg;
    res ← _nodify_args frame li rest;
    TreeRebuilder.ret (n :: res)
  end.

(** [_rec_get_names(args)]: the names are appended to the accumulator
    in the order of the arguments. *)
Fixpoint _rec_get_name (arg : argnode) : list string :=
  match arg with
  | NArgTuple _ elts =>
    (fix names_of (args : list argnode) : list string :=
       match args with
       | [] => []
       | arg :: rest => _rec_get_name arg ++ names_of rest
       end) elts
  | NArgName _ _ name => [name]
  end.

Fixpoint _rec_get_names (args : list argnode) : list string :=
  match args with
  | [] => []
  | arg :: rest => _rec_get_name arg ++ _rec_get_names rest
  end.

(** The names at the leaves of the argument names, left to right. *)
Fixpoint leaf_name (arg : argspec) : list string :=
  match arg with
  | ArgTuple elts =>
    (fix leaves (values : list argspec) : list string :=
       match values with
       | [] => []
       | arg :: rest => leaf_name arg ++ leaves rest
       end) elts
  | ArgName name => [name]
  end.

Fixpoint leaf_names (values : list argspec) : list string :=
  match values with
  | [] => []
  | arg :: rest => leaf_name arg ++ leaf_names rest
  end.

(** Induction on argument names, through the tuples. *)
Section argspec_induction.

Variable P : argspec -> Prop.
Hypothesis HArgName : forall name, P (ArgName name).
Hypothesis HArgTuple : forall elts, Forall P elts -> P (ArgTuple elts).

Fixpoint argspec_elts_ind (arg : argspec) : P arg :=
  match arg with
  | ArgName name => HArgName name
  | ArgTuple elts =>
    HArgTuple elts
      ((fix all (l : list argspec) : Forall P l :=
          match l with
          | [] => Forall_nil_2 P
          | x :: l' => Forall_cons_2 P x l' (argspec_elts_ind x) (all l')
          end) elts)
  end.

End argspec_induction.

(** [name.split('.')[0]] *)
Fixpoint first_component (s : string) : string :=
  match s with
  | EmptyString => EmptyString
  | String c rest =>
    if decide (String c EmptyString = ".") then EmptyString
    else String c (first_component rest)
  end.

(** [asname or name] *)
Definition imported_as (name : string) (asname : option string) : string :=
  match asname with
  | Some a => if decide (a = "") then name else a
  | None => name
  end.

(** [RebuildVisitor._save_import_locals]: [newnode] is the [Import]
    node, [names] its list of [(name, asname)]. *)
Definition _save_import_locals (g : Graph) (frame : scope_ref)
    (newnode : nat) (names : list (string * option string)) : Graph :=
  foldl (fun g '(name, asname) =>
           set_local g frame (first_component (imported_as name asname))
                     (StmtN Import newnode frame))
        g names.

(** ** More of the module nodes *)

(** [s.split('.')] *)
Fixpoint split_dots (s : string) : list string :=
  match s with
  | EmptyString => [EmptyString]
  | String c rest =>
    if decide (String c EmptyString = ".") then EmptyString :: split_dots rest
    else
      match split_dots rest with
      | part :: parts => String c part :: parts
      | [] => [String c EmptyString]
      end
  end.

(** ['.'.join(parts)] *)
Fixpoint join_dots (parts : list string) : string :=
  match parts with
  | [] => ""
  | [part] => part
  | part :: rest => part +:+ "." +:+ join_dots rest
  end.

(** [ModuleNG.absolute_modname]; [activated] is the answer of
    [self.absolute_import_activated()], and a [level] that is [None] or
    0 is false.  The slice [parts[:-level]] keeps what is before the
    last [level] parts, nothing when there are no more than that. *)
Definition absolute_modname (g : Graph) (self : nat) (activated : bool)
    (modname : string) (level : option nat) : string :=
  let name := scope_name g (InModule self) in
  let package := default false (m_package <$> modules g !! self) in
  let level := default 0 level in
  if activated && bool_decide (level = 0) then modname
  else
    let package_name :=
      if bool_decide (level <> 0) then
        let parts :=
          split_dots name ++ (if package then ["__init__"] else []) in
        join_dots (take (length parts - level) parts)
      else if package then name
      else
        let parts := split_dots name in
        join_dots (take (length parts - 1) parts) in
    if decide (package_name = "") then modname
    else package_name +:+ "." +:+ modname.

(** Package [a.b] (identity 0) and its module [a.b.c] (identity 1). *)
Definition package_and_module : Graph :=
  mkGraph ∅ ∅
    (<[0 := mkModule "a.b" None None true ∅ ∅]>
       (<[1 := mkModule "a.b.c" None None false ∅ ∅]> ∅)) ∅.

(** What the loop of [ClassNG.getattr] adds to the values of the class:
    the lists that the lookups on the direct bases return, in the order
    of the bases; a base that raises [NotFoundError] adds nothing. *)
Definition inherited_values (rs : list (res (list attr_node)))
    : list attr_node :=
  mjoin (omap (fun r => match r with Ok l => Some l | Raise _ => None end) rs).

(** Class [B] (identity 1) with the base expression [10], which infers
    to class [A] (identity 2); both define the method [m] (functions 5
    and 6). *)
Definition overriding_pair : Graph :=
  mkGraph
    (<[1 := mkClass "B" None 0 [10] (<["m" := [FunctionN 5]]> ∅) ∅ None]>
       (<[2 := mkClass "A" None 0 [] (<["m" := [FunctionN 6]]> ∅) ∅ None]> ∅))
    (<[5 := mkFunction "m" None 0 RMethod None ∅]>
       (<[6 := mkFunction "m" None 0 RMethod None ∅]> ∅))
    (<[0 := mkModule "mod" None None false ∅ ∅]> ∅)
    (<[10 := mkOutcome [Node (ClassN 2)] false]> ∅).

(** ** More of the class nodes *)

(** The [instance_attrs] entries of the ancestors that have the name,
    in the order of the ancestors ([instance_attr_ancestors]). *)
Definition inherited_instance_attrs (g : Graph) (ancestors : list nat)
    (name : string) : list node :=
  class_node ← filter (fun c => is_Some (table g (InstanceAttrs c) !! name))
                      ancestors;
  default [] (table g (InstanceAttrs class_node) !! name).

(** [ClassNG.instance_attr].  [values] is the very list stored in
    [self.instance_attrs] when the class has the name, and [values +=
    ...] extends that list in place: the graph is returned with the
    result.  The ancestors are computed at once; the class is never one
    of them, so that the lists read from them are not the one being
    extended. *)
Definition instance_attr (fuel : nat) (g : Graph)
    (context : option (list nat)) (self : nat) (name : string)
    : option (res (list attr_node) * Graph) :=
  ancestors ← ClassNG.ancestors fuel g true context self;
  let own := table g (InstanceAttrs self) !! name in
  let values := default [] own ++ inherited_instance_attrs g ancestors name in
  let g' :=
    match own with
    | Some _ =>
      set_table g (InstanceAttrs self)
                (<[name := values]> (table g (InstanceAttrs self)))
    | None => g
    end in
  Some (remove_nodes DelAttr
          (match values with
           | [] => Raise NotFoundError
           | _ => Ok (Existing <$> values)
           end), g').

(** The [type] of a class: 'class' | 'metaclass' | 'interface' |
    'exception'. *)
Inductive class_type := TClass | TMetaclass | TInterface | TException.

#[global] Instance class_type_eq_dec : EqDecision class_type.
Proof. solve_decision. Defined.

(** [name.endswith(suffix)] *)
Definition endswith (name suffix : string) : bool :=
  String.prefix (String.rev suffix) (String.rev name).

(** [_class_type(klass)], behind the [type] property.  The [_type]
    attributes of the classes are the dictionary [types], by class
    identity; it is returned with the type, since the types of the
    bases are computed, and stored, on the way. *)
Fixpoint _class_type (fuel : nat) (g : Graph) (types : gmap nat class_type)
    (klass : nat) : option (class_type * gmap nat class_type) :=
  match fuel with
  | O => None
  | S fuel' =>
    match types !! klass with
    | Some t => Some (t, types)
    | None =>
      let name := scope_name g (InClass klass) in
      if decide (name = "type") then
        Some (TMetaclass, <[klass := TMetaclass]> types)
      else if endswith name "Interface" then
        Some (TInterface, <[klass := TInterface]> types)
      else if endswith name "Exception" then
        Some (TException, <[klass := TException]> types)
      else
        bases ← ClassNG.ancestors fuel g false None klass;
        (fix loop (bases : list nat) (types : gmap nat class_type)
           : option (class_type * gmap nat class_type) :=
           match bases with
           | [] => Some (TClass, <[klass := TClass]> types)
           | base :: rest =>
             '(t, types') ← _class_type fuel' g types base;
             if decide (t = TClass) then loop rest types'
             else Some (t, <[klass := t]> types')
           end) bases types
    end
  end.

(** Class [B] (identity 1) with the base expression [10], which
    infers to class [AException] (identity 2); both have assignments to
    [self.x], in their [instance_attrs]. *)
Definition inheriting_pair : Graph :=
  mkGraph
    (<[1 := mkClass "B" None 0 [10] ∅
              (<["x" := [StmtN AssAttr 21 (InFunction 5)]]> ∅) None]>
       (<[2 := mkClass "AException" None 0 [] ∅
                 (<["x" := [StmtN AssAttr 20 (InFunction 6)]]> ∅) None]> ∅))
    ∅ ∅
    (<[10 := mkOutcome [Node (ClassN 2)] false]> ∅).

(** [name in self._global_names[-1]], false with an empty stack. *)
Definition declared_global (st : TreeRebuilder.RebuildState) (name : string)
    : Prop :=
  exists names, last (TreeRebuilder._global_names st) = Some names
                /\ is_Some (names !! name).

(** ['.' in name] *)
Fixpoint has_dot (s : string) : bool :=
  match s with
  | EmptyString => false
  | String c rest =>
    if decide (String c EmptyString = ".") then true else has_dot rest
  end.

(** What a run that only adds bindings does to the state: the bindings
    at hand stay, and each of [names] that is not declared global gets
    a new [AssName] node in [frame]. *)
Definition binds (frame : scope_ref) (names : list string)
    (st st' : TreeRebuilder.RebuildState) : Prop :=
  TreeRebuilder._global_names st' = TreeRebuilder._global_names st
  /\ TreeRebuilder.next_id st <= TreeRebuilder.next_id st'
  /\ (forall t, has_table (TreeRebuilder.graph st') t = has_table (TreeRebuilder.graph st) t)
  /\ (forall t k (x : node),
        x ∈ default [] (table (TreeRebuilder.graph st) t !! k) ->
        x ∈ default [] (table (TreeRebuilder.graph st') t !! k))
  /\ (has_table (TreeRebuilder.graph st) (Locals frame) = true ->
      forall name, name ∈ names -> ~ declared_global st name ->
        exists id, TreeRebuilder.next_id st <= id < TreeRebuilder.next_id st'
          /\ StmtN AssName id frame
             ∈ default [] (locals_of (TreeRebuilder.graph st') frame !! name)).


Lemma bases_of_base_nodes g c stmt :
  stmt ∈ bases_of g c -> stmt ∈ base_nodes g.
Proof.
  unfold bases_of, base_nodes. intros Hin.
  destruct (classes g !! c) as [cls|] eqn:Hc; simpl in Hin.
  - apply elem_of_list_to_set, list_elem_of_join.
    exists (c_bases cls). split; [done|].
    apply list_elem_of_fmap. exists (c, cls). split; [done|].
    by apply elem_of_map_to_list.
  - by apply not_elem_of_nil in Hin.
Qed.

(** ** Ancestors: termination and cycles *)

Section Ancestors.

Import ClassNG.

Lemma mjoin_mapM_elem {A B} (f : A -> option (list B)) (l : list A) r x :
  mjoin <$> mapM f l = Some r -> x ∈ r ->
  exists a ys, a ∈ l /\ f a = Some ys /\ x ∈ ys.
Proof.
  intros Hr Hx. apply fmap_Some in Hr as (ls & Hls & ->).
  apply mapM_Some in Hls. apply list_elem_of_join in Hx as (ys & Hx & Hys).
  destruct (proj1 (list_elem_of_lookup _ _) Hys) as [i Hi].
  destruct (Forall2_lookup_r _ _ _ _ _ Hls Hi) as (a & Ha & Hfa).
  exists a, ys. split; [by eapply list_elem_of_lookup_2|done].
Qed.

Lemma mjoin_mapM_sub {A B} (f : A -> option (list B)) (l : list A) r a :
  mjoin <$> mapM f l = Some r -> a ∈ l ->
  exists ys, f a = Some ys /\ forall x, x ∈ ys -> x ∈ r.
Proof.
  intros Hr Ha. apply fmap_Some in Hr as (ls & Hls & ->).
  apply mapM_Some in Hls.
  destruct (proj1 (list_elem_of_lookup _ _) Ha) as [i Hi].
  destruct (Forall2_lookup_l _ _ _ _ _ Hls Hi) as (ys & Hys & Hfa).
  exists ys. split; [done|]. intros x Hx. apply list_elem_of_join.
  exists ys. split; [done|]. by eapply list_elem_of_lookup_2.
Qed.

(** Every yielded class comes from a base expression of [self] that is
    not in progress: it is either the inferred base itself or one of
    its own ancestors, computed while the base expression is in
    progress, and it is never [self]. *)
Lemma ancestors_elem fuel g recurs context self l x :
  let path := default [] context in
  ancestors (S fuel) g recurs context self = Some l -> x ∈ l ->
  exists stmt c, stmt ∈ bases_of g self /\ (stmt ∉ path) /\
    Node (ClassN c) ∈ yielded (infer g path stmt) /\ c <> self /\
    (x = c \/
     (recurs = true /\ x <> self /\
      exists gps, ancestors fuel g true (Some (stmt :: path)) c = Some gps
                  /\ x ∈ gps)).
Proof.
  simpl. set (path := default [] context). intros Hl Hx.
  destruct (mjoin_mapM_elem _ _ _ _ Hl Hx) as (stmt & ys & Hstmt & Hys & Hxys).
  destruct (mjoin_mapM_elem _ _ _ _ Hys Hxys) as (baseobj & zs & Hb & Hzs & Hxzs).
  assert (Hnp : stmt ∉ path).
  { intros Hin. unfold infer in Hb. rewrite decide_True in Hb by done.
    by apply not_elem_of_nil in Hb. }
  destruct baseobj as [| | | |[m|c|f|k i fr]];
    try (injection Hzs as <-; by apply not_elem_of_nil in Hxzs).
  destruct (decide (c = self)) as [->|Hne].
  { injection Hzs as <-. by apply not_elem_of_nil in Hxzs. }
  exists stmt, c. repeat split; try done.
  destruct recurs.
  - destruct (ancestors fuel g true (Some (stmt :: path)) c) as [gps|] eqn:Hg;
      simpl in Hzs; [|done].
    injection Hzs as <-. apply elem_of_cons in Hxzs as [->|Hf]; [by left|].
    apply list_elem_of_filter in Hf as [Hns Hin]. right. eauto.
  - injection Hzs as <-. apply list_elem_of_singleton in Hxzs. by left.
Qed.

(** The class whose ancestors are asked for is never among them. *)
Lemma ancestors_not_self fuel g recurs context self l :
  ancestors fuel g recurs context self = Some l -> self ∉ l.
Proof.
  destruct fuel as [|fuel]; [done|]. intros Hl Hin.
  destruct (ancestors_elem _ _ _ _ _ _ _ Hl Hin)
    as (stmt & c & _ & _ & _ & Hne & [->|(_ & Hns & _)]); done.
Qed.

(** Each recursive call puts one more base expression in progress, so
    the recursion depth is bounded by the number of base expressions of
    the graph that are not yet in progress. *)
Lemma ancestors_total g fuel : forall recurs context self,
  size (base_nodes g ∖ list_to_set (default [] context)) < fuel ->
  is_Some (ancestors fuel g recurs context self).
Proof.
  induction fuel as [|fuel IH]; intros recurs context self Hlt; [lia|].
  simpl. set (path := default [] context) in *.
  apply fmap_is_Some, mapM_is_Some, Forall_forall.
  intros stmt Hstmt. apply fmap_is_Some, mapM_is_Some, Forall_forall.
  intros baseobj Hb. simpl.
  destruct baseobj as [| | | |[m|c|f|k i fr]]; try done.
  case_decide; [done|]. destruct recurs; [|done].
  unfold infer in Hb. case_decide as Hp; [by apply not_elem_of_nil in Hb|].
  destruct (IH true (Some (stmt :: path)) c) as [gps ->]; [|done].
  change (default [] (Some (stmt :: path))) with (stmt :: path).
  apply bases_of_base_nodes in Hstmt.
  assert (size (base_nodes g ∖ list_to_set (stmt :: path))
          < size (base_nodes g ∖ list_to_set path)); [|lia].
  apply subset_size. split.
  - intros x. rewrite !elem_of_difference, !elem_of_list_to_set, elem_of_cons.
    tauto.
  - intros Hsub. specialize (Hsub stmt).
    rewrite !elem_of_difference, !elem_of_list_to_set, elem_of_cons in Hsub.
    tauto.
Qed.

Lemma infer_declared g path self stmt c :
  stmt ∈ bases_of g self -> Node (ClassN c) ∈ yielded (infer g path stmt) ->
  c ∈ declared_bases g self.
Proof.
  intros Hs Hc. unfold declared_bases. apply list_elem_of_bind.
  exists stmt. split; [|done]. unfold infer in Hc.
  case_decide; [by apply not_elem_of_nil in Hc|].
  unfold class_candidates. apply list_elem_of_omap. by exists (Node (ClassN c)).
Qed.

(** Ancestors stay inside any set of classes closed under "declares as
    a base". *)
Lemma ancestors_closed g (S : nat -> Prop) :
  (forall c b, S c -> b ∈ declared_bases g c -> S b) ->
  forall fuel recurs context self l,
    S self -> ancestors fuel g recurs context self = Some l -> Forall S l.
Proof.
  intros Hclosed. induction fuel as [|fuel IH]; [done|].
  intros recurs context self l HS Hl. apply Forall_forall. intros x Hx.
  destruct (ancestors_elem _ _ _ _ _ _ _ Hl Hx)
    as (stmt & c & Hstmt & _ & Hc & _ & Hcase).
  assert (S c) as HSc by eauto using infer_declared.
  destruct Hcase as [->|(_ & _ & gps & Hg & Hin)]; [done|].
  eapply (proj1 (Forall_forall _ _)); [by eapply IH|done].
Qed.

End Ancestors.

(** *** The mutually cyclic pair *)

Example cyclic_pair_ancestors :
  ClassNG.ancestors 3 cyclic_pair true None 0 = Some [1].
Proof. vm_compute. reflexivity. Qed.

Example cyclic_pair_ancestors_direct :
  ClassNG.ancestors 1 cyclic_pair false None 0 = Some [1].
Proof. vm_compute. reflexivity. Qed.

(** C1. For classes [X] and [Y] whose base lists are mutually cyclic
    ([X] declares [Y] as a base, [Y] declares [X], and neither declares
    another class), [ancestors] with [recurs = True] called on [X] with a
    fresh context terminates (any fuel above the number of base
    expressions of the graph is enough) and yields the class [Y] and
    nothing else: the traversal neither loops nor yields [X], which is on
    the traversal path. *)
Theorem ancestors_mutual_cycle (g : Graph) (X Y fuel : nat) :
  X <> Y ->
  Y ∈ declared_bases g X ->
  X ∈ declared_bases g Y ->
  (forall c, c ∈ declared_bases g X -> c = X \/ c = Y) ->
  (forall c, c ∈ declared_bases g Y -> c = X \/ c = Y) ->
  size (base_nodes g) < fuel ->
  exists l, ClassNG.ancestors fuel g true None X = Some l /\
            Y ∈ l /\ forall c, c ∈ l -> c = Y.
Proof.
  intros Hne HXY HYX HX HY Hfuel.
  destruct (ancestors_total g fuel true None X) as [l Hl].
  { eapply Nat.le_lt_trans; [|exact Hfuel]. apply subseteq_size.
    intros x. rewrite elem_of_difference. tauto. }
  exists l. split; [done|]. split.
  - destruct fuel as [|fuel]; [done|]. simpl in Hl.
    unfold declared_bases in HXY.
    apply list_elem_of_bind in HXY as (stmt & HYc & Hstmt).
    apply list_elem_of_omap in HYc as (i & Hi & Hic).
    assert (i = Node (ClassN Y)) as ->.
    { destruct i as [| | | |[]]; try done. by injection Hic as ->. }
    destruct (mjoin_mapM_sub _ _ _ _ Hl Hstmt) as (ys & Hys & Hsub).
    apply Hsub. unfold infer in Hys. rewrite decide_False in Hys
      by apply not_elem_of_nil.
    destruct (mjoin_mapM_sub _ _ _ _ Hys Hi) as (zs & Hzs & Hsub').
    apply Hsub'. simpl in Hzs. rewrite decide_False in Hzs by done.
    destruct (ClassNG.ancestors fuel g true (Some [stmt]) Y); simpl in Hzs;
      [|done].
    injection Hzs as <-. apply elem_of_cons. by left.
  - intros c Hc.
    pose proof (ancestors_not_self _ _ _ _ _ _ Hl) as Hns.
    assert (Forall (fun c => c = X \/ c = Y) l) as Hall.
    { eapply (ancestors_closed g (fun c => c = X \/ c = Y)); [|by left|done].
      intros c' b [->| ->]; auto. }
    destruct (proj1 (Forall_forall _ _) Hall c Hc) as [->|]; done.
Qed.

Lemma ancestors_mutual_cycle_witness :
  exists l, ClassNG.ancestors 3 cyclic_pair true None 0 = Some l /\
            1 ∈ l /\ forall c, c ∈ l -> c = 1.
Proof.
  apply (ancestors_mutual_cycle cyclic_pair 0 1 3).
  - lia.
  - vm_compute. apply list_elem_of_here.
  - vm_compute. apply list_elem_of_here.
  - intros c Hc. vm_compute in Hc. right.
    by apply list_elem_of_singleton in Hc.
  - intros c Hc. vm_compute in Hc. left.
    by apply list_elem_of_singleton in Hc.
  - vm_compute. lia.
Defined.


(** ** Function roles *)

Section FunctionRoles.

Import RebuildVisitor.

Lemma foldl_decorator_type nodes : forall type,
  foldl (fun type decorator_expr =>
           default type (decorator_type decorator_expr)) type nodes
  = default type (last_decorator_type nodes).
Proof.
  unfold last_decorator_type.
  induction nodes as [|d nodes IH]; intros type; [done|].
  simpl. rewrite IH. destruct (decorator_type d) as [r|]; simpl; [|done].
  rewrite last_cons.
  change (list_omap expr role decorator_type nodes)
    with (omap decorator_type nodes).
  by destruct (last (omap decorator_type nodes)).
Qed.

Lemma visit_function_type g fid newnode name frame :
  f_type (visit_function g fid newnode name frame).1 =
  default (match frame with
           | InClass _ =>
             if decide (name = "__new__") then RClassmethod else RMethod
           | _ => f_type newnode
           end) (f_decorators newnode ≫= last_decorator_type).
Proof.
  unfold visit_function. simpl.
  destruct (f_decorators newnode) as [nodes|]; simpl; [|done].
  apply foldl_decorator_type.
Qed.

End FunctionRoles.

(** C2 (as amended). A function named [__new__] defined directly in a
    class body gets the type named by the last of its decorators that
    is the bare name [classmethod] or [staticmethod], and the type
    classmethod when it has no such decorator. *)
Theorem visit_function_new_type (g : Graph) (fid : nat)
    (newnode : FunctionNode) (c : nat) :
  f_type (RebuildVisitor.visit_function g fid newnode "__new__" (InClass c)).1
  = default RClassmethod (f_decorators newnode ≫= last_decorator_type).
Proof. rewrite visit_function_type. by rewrite decide_True. Qed.

(** C2, counterexample: [@staticmethod def __new__(cls): ...] in the
    body of class [C] is rebuilt with the type staticmethod. *)
Lemma visit_function_new_staticmethod :
  f_type (RebuildVisitor.visit_function one_class 1
            (RebuildVisitor.new_function 0 None (Some [Name "staticmethod"]) ∅)
            "__new__" (InClass 0)).1 = RStaticmethod
  /\ RStaticmethod <> RClassmethod.
Proof. split; [reflexivity|discriminate]. Qed.

(** ** Chained bit operations and conditionals *)

Section Rebuilding.

Import TreeRebuilder.

Lemma bind_ok {A B} (m : M A) (k : A -> M B) st a st' :
  m st = Ok (a, st') -> (m ≫= k) st = k a st'.
Proof. intros H. unfold mbind, M_bind, bind. by rewrite H. Qed.

End Rebuilding.

(** ** Line spans of the synthesized conditionals *)

Section ElifSpans.

Import TreeRebuilder.

Lemma bind_inv {A B} (m : M A) (k : A -> M B) st r :
  (m ≫= k) st = Ok r -> exists a st1, m st = Ok (a, st1) /\ k a st1 = Ok r.
Proof.
  unfold mbind, M_bind, bind. destruct (m st) as [[a st1]|e]; [|done].
  intros H. by exists a, st1.
Qed.

Lemma elif_lines_state li tests st info st' :
  elif_lines li tests st = Ok (info, st') ->
  st' = st /\ forall st0, elif_lines li tests st0 = Ok (info, st0).
Proof.
  unfold elif_lines. destruct (tests !! 1) as [[test body]|]; [|done].
  destruct (fromlineno (lines_of test)); [|done].
  destruct (last body) as [stmt|]; [|done].
  destruct (tolineno (lines_of stmt)); [|done].
  destruct (tolineno (lines_of test)); [|done].
  unfold ret. intros [= <- <-]. by split.
Qed.

(** Whatever the number of elifs, every conditional that [visit_if]
    synthesizes carries the line information computed from
    [node.tests[1]]. *)
Lemma visit_if_elif_lines frame li test body elifs else_ st n st' :
  visit frame (CIf li ((test, body) :: elifs) else_) st = Ok (Some n, st') ->
  forall i, i < length elifs ->
    exists info st0,
      elif_lines li ((test, body) :: elifs) st0 = Ok (info, st0)
      /\ elif_node i (rebuilt_orelse (Ok (Some n, st'))) = Some info.
Proof.
  simpl. intros Hv.
  apply bind_inv in Hv as (test' & st1 & _ & Hv).
  apply bind_inv in Hv as (body' & st2 & _ & Hv).
  apply bind_inv in Hv as (orelse & st3 & Helifs & Hret).
  injection Hret as <- <-. simpl.
  set (tests := (test, body) :: elifs) in *.
  clearbody tests. clear st st1 test' body' test body.
  revert st2 st3 orelse Helifs.
  induction elifs as [|[t b] rest IH]; intros st2 st3 orelse Helifs i Hi;
    [simpl in Hi; lia|].
  apply bind_inv in Helifs as (info & sta & Hinfo & Helifs).
  apply bind_inv in Helifs as (t' & stb & _ & Helifs).
  apply bind_inv in Helifs as (b' & stc & _ & Helifs).
  apply bind_inv in Helifs as (orelse' & std & Hrest & Hret).
  injection Hret as <- <-.
  apply elif_lines_state in Hinfo as [-> Hinfo].
  destruct i as [|i].
  - exists info, st2. split; [apply Hinfo|]. simpl. by destruct info.
  - simpl in Hi. destruct (IH _ _ _ Hrest i) as (info' & st0 & Hinfo' & Hnode);
      [lia|].
    exists info', st0. split; [done|]. exact Hnode.
Qed.

End ElifSpans.

(** C3 (the code departs from it). In [if a: pass / elif b: pass /
    elif c: pass] the node synthesized for the first elif carries the
    span of the first elif (lines 3 to 4, block start 3), and so does
    the node synthesized for the second elif, whose own span is lines 5
    to 6 with block start 5. *)
Theorem visit_if_second_elif_span :
  let r := TreeRebuilder.visit (InModule 0) if_elif_elif module_level in
  elif_node 0 (rebuilt_orelse r)
    = Some (TreeRebuilder.mkLines (Some 1) (Some 3) (Some 4), Some 3)
  /\ elif_node 1 (rebuilt_orelse r)
    = Some (TreeRebuilder.mkLines (Some 1) (Some 3) (Some 4), Some 3).
Proof. split; vm_compute; reflexivity. Qed.

(** C7. Rebuilding [a & b & c] (and likewise with [|] or [^]) gives a
    binary node whose operator is that of the chain, whose right
    operand is the rebuilt [c] and whose left operand is a binary node
    with the same operator and the rebuilt [a] and [b] as its left and
    right operands.  The operands are rebuilt in the order [c], [b],
    [a]. *)
Theorem visit_binop_three_operands (frame : scope_ref)
    (li : TreeRebuilder.lineinfo) (cls : TreeRebuilder.bitop)
    (a b c : TreeRebuilder.cnode) (a' b' c' : option TreeRebuilder.anode)
    (st st1 st2 st3 : TreeRebuilder.RebuildState) :
  TreeRebuilder.visit frame c st = Ok (c', st1) ->
  TreeRebuilder.visit frame b st1 = Ok (b', st2) ->
  TreeRebuilder.visit frame a st2 = Ok (a', st3) ->
  TreeRebuilder.visit frame (TreeRebuilder.CBitop li cls [a; b; c]) st
  = Ok (Some (TreeRebuilder.NBinOp li (TreeRebuilder.bitop_symbol cls)
                (Some (TreeRebuilder.NBinOp TreeRebuilder.no_lines
                         (TreeRebuilder.bitop_symbol cls) a' b'))
                c'),
        st3).
Proof.
  intros Hc Hb Ha. simpl.
  unfold mbind, TreeRebuilder.M_bind, TreeRebuilder.bind.
  rewrite Hc. cbv beta iota. rewrite Hb. cbv beta iota. rewrite Ha.
  reflexivity.
Qed.

Lemma visit_binop_three_operands_witness :
  TreeRebuilder.visit (InModule 0)
    (TreeRebuilder.CBitop (span 1 1) TreeRebuilder.Bitand
       [TreeRebuilder.CName (span 1 1) "a";
        TreeRebuilder.CName (span 1 1) "b";
        TreeRebuilder.CName (span 1 1) "c"]) module_level
  = Ok (Some (TreeRebuilder.NBinOp (span 1 1) "&"
                (Some (TreeRebuilder.NBinOp TreeRebuilder.no_lines "&"
                         (Some (TreeRebuilder.NName (span 1 1) "a"))
                         (Some (TreeRebuilder.NName (span 1 1) "b"))))
                (Some (TreeRebuilder.NName (span 1 1) "c"))),
        module_level).
Proof.
  apply (visit_binop_three_operands (InModule 0) (span 1 1)
           TreeRebuilder.Bitand _ _ _ _ _ _
           module_level module_level module_level module_level);
    reflexivity.
Defined.

(** ** Dictionaries of the graph *)

Section Tables.

Lemma has_table_true g t :
  has_table g t = true ->
  match t with
  | InstanceAttrs c | Locals (InClass c) => is_Some (classes g !! c)
  | Locals (InModule m) => is_Some (modules g !! m)
  | Locals (InFunction f) => is_Some (functions g !! f)
  end.
Proof.
  destruct t as [c|[m|c|f]]; simpl; intros H;
    by apply bool_decide_eq_true in H.
Qed.

Lemma table_set_table_eq g t d :
  has_table g t = true -> table (set_table g t d) t = d.
Proof.
  intros H. apply has_table_true in H.
  destruct t as [c|[m|c|f]]; destruct H as [x Hx]; simpl;
    rewrite lookup_alter_eq, Hx; reflexivity.
Qed.

Lemma table_set_table_ne g t t' d :
  t <> t' -> table (set_table g t d) t' = table g t'.
Proof.
  intros Hne.
  destruct t as [c|[m|c|f]], t' as [c'|[m'|c'|f']]; simpl; try reflexivity.
  - destruct (decide (c = c')) as [->|]; [done|]. by rewrite lookup_alter_ne.
  - destruct (decide (c = c')) as [->|]; [|by rewrite lookup_alter_ne].
    rewrite lookup_alter_eq. by destruct (classes g !! c').
  - destruct (decide (m = m')) as [->|]; [done|]. by rewrite lookup_alter_ne.
  - destruct (decide (c = c')) as [->|]; [|by rewrite lookup_alter_ne].
    rewrite lookup_alter_eq. by destruct (classes g !! c').
  - destruct (decide (c = c')) as [->|]; [done|]. by rewrite lookup_alter_ne.
  - destruct (decide (f = f')) as [->|]; [done|]. by rewrite lookup_alter_ne.
Qed.

Lemma set_table_missing g t d : has_table g t = false -> set_table g t d = g.
Proof.
  intros H. destruct g as [cs fs ms infs].
  destruct t as [c|[m|c|f]]; simpl in *; unfold set_classes, set_modules,
    set_functions; simpl; f_equal; apply alter_id; intros x Hx;
    apply bool_decide_eq_false in H; destruct H; eauto.
Qed.

Lemma has_table_set_table g t d t' :
  has_table (set_table g t d) t' = has_table g t'.
Proof.
  destruct t as [c|[m|c|f]], t' as [c'|[m'|c'|f']]; simpl; try reflexivity;
    apply bool_decide_ext; rewrite lookup_alter; case_decide; subst;
    try reflexivity; rewrite !is_Some_alt;
    match goal with |- context [?m !! ?k] => destruct (m !! k) end; done.
Qed.

Lemma scope_name_set_table g t d s :
  scope_name (set_table g t d) s = scope_name g s.
Proof.
  destruct t as [c|[m|c|f]], s as [m'|c'|f']; simpl; try reflexivity;
    rewrite lookup_alter; case_decide; subst; try reflexivity;
    match goal with |- context [?m !! ?k] => destruct (m !! k) end; done.
Qed.

Lemma locals_of_set_local g s name n :
  has_table g (Locals s) = true ->
  locals_of (set_local g s name n) s !! name
  = Some (default [] (locals_of g s !! name) ++ [n]).
Proof.
  intros H. unfold set_local.
  change (locals_of ?g s) with (table g (Locals s)).
  rewrite table_set_table_eq by done. apply lookup_insert_eq.
Qed.

End Tables.

(** ** Deleting a name that was never assigned *)

Section Deletion.

Import TreeRebuilder.

(** What [visit] does with [del name] outside any assignment context
    or inside a deletion. *)
Lemma visit_delete st s li name flags :
  asscontext st = None \/ asscontext st = Some Del ->
  exists scope,
    visit s (CAssName li name flags) st
    = Ok (Some (deletion_node (asscontext st) li (next_id st) name),
          mkState (asscontext st) (_global_names st)
                  (set_local (graph st) scope name
                             (StmtN DelName (next_id st) s))
                  (S (next_id st)))
    /\ (scope = s \/ scope = InModule (root_of (graph st) s)).
Proof.
  destruct st as [ctx gn g id]; simpl. intros Hctx.
  destruct (last gn) as [names|] eqn:Hlast.
  - destruct (decide (is_Some (names !! name))) as [Hin|Hin].
    + exists (InModule (root_of g s)). split; [|by right].
      destruct Hctx as [-> | ->];
        unfold visit_assname, visit_delname, _save_assignment, fresh;
        unfold mbind, M_bind, bind; simpl; rewrite Hlast; by rewrite decide_True.
    + exists s. split; [|by left].
      destruct Hctx as [-> | ->];
        unfold visit_assname, visit_delname, _save_assignment, fresh;
        unfold mbind, M_bind, bind; simpl; rewrite Hlast; by rewrite decide_False.
  - exists s. split; [|by left].
    destruct Hctx as [-> | ->];
      unfold visit_assname, visit_delname, _save_assignment, fresh;
      unfold mbind, M_bind, bind; simpl; by rewrite Hlast.
Qed.

Lemma module_getattr_deleted g m name id fr :
  name ∉ ModuleNG.special_attributes ->
  locals_of g (InModule m) !! name = None ->
  ModuleNG.getattr (set_local g (InModule m) name (StmtN DelName id fr)) m name
  = Raise NotFoundError.
Proof.
  intros Hsp Hnone. unfold ModuleNG.getattr, ModuleNG.getattr_body.
  rewrite decide_False by done.
  destruct (has_table g (Locals (InModule m))) eqn:Ht.
  - rewrite locals_of_set_local by done. rewrite Hnone. reflexivity.
  - unfold set_local. rewrite set_table_missing by done. rewrite Hnone.
    simpl in Ht. apply bool_decide_eq_false in Ht.
    destruct (modules g !! m) eqn:Hm; [destruct Ht; eauto|]. reflexivity.
Qed.

Lemma function_getattr_not_special g f name :
  name ∉ "__module__" :: FunctionNG.special_attributes ->
  FunctionNG.getattr g f name = Raise NotFoundError.
Proof.
  intros Hsp. unfold FunctionNG.getattr, std_special_attributes.
  unfold FunctionNG.special_attributes in Hsp.
  rewrite !not_elem_of_cons in Hsp. destruct Hsp as (? & ? & ? & ? & _).
  by rewrite !decide_False.
Qed.

End Deletion.

(** C8, counterexample.  [del x] in the body of class [C], where [x] was
    never assigned: the deletion node is produced, and [getattr] on the
    class then returns the deletion binding, because [ClassNG.getattr] is
    not wrapped by [remove_nodes].  [del __name__] at the top of module
    [m]: [getattr] answers the special attribute. *)
Lemma delete_unassigned_found :
  (exists st',
     TreeRebuilder.visit (InClass 0)
       (TreeRebuilder.CAssName (span 2 2) "x" "OP_DELETE") in_class_body
     = Ok (Some (TreeRebuilder.NDelete (span 2 2)
                   [Some (TreeRebuilder.NDelName (span 2 2) 0 "x")]), st')
     /\ get_attribute 1 (TreeRebuilder.graph st') (InClass 0) "x"
        = Some (Ok [Existing (StmtN DelName 0 (InClass 0))]))
  /\ (exists st',
     TreeRebuilder.visit (InModule 0)
       (TreeRebuilder.CAssName (span 1 1) "__name__" "OP_DELETE") module_level
     = Ok (Some (TreeRebuilder.NDelete (span 1 1)
                   [Some (TreeRebuilder.NDelName (span 1 1) 0 "__name__")]), st')
     /\ get_attribute 1 (TreeRebuilder.graph st') (InModule 0) "__name__"
        = Some (Ok [SynthConst (CStr "m")])).
Proof.
  split; eexists; (split; [reflexivity|]); vm_compute; reflexivity.
Qed.

(** C8 (as amended). In a module or function scope, deleting a name
    that was never assigned there and that is not one of the names the
    scope's [getattr] answers by itself produces a deletion node (a
    [Delete] statement with a [DelName] target, or the [DelName] target
    when a deletion is already being rebuilt), without raising and with
    the assignment context as it was; [getattr] for that name on the
    scope then raises [NotFoundError]. *)
Theorem delete_unassigned_not_found (st : TreeRebuilder.RebuildState)
    (s : scope_ref) (li : TreeRebuilder.lineinfo) (name flags : string)
    (fuel : nat) :
  TreeRebuilder.asscontext st = None
  \/ TreeRebuilder.asscontext st = Some TreeRebuilder.Del ->
  (forall c, s <> InClass c) ->
  locals_of (TreeRebuilder.graph st) s !! name = None ->
  name ∉ reserved_names s ->
  exists st',
    TreeRebuilder.visit s (TreeRebuilder.CAssName li name flags) st
    = Ok (Some (deletion_node (TreeRebuilder.asscontext st) li
                              (TreeRebuilder.next_id st) name), st')
    /\ TreeRebuilder.asscontext st' = TreeRebuilder.asscontext st
    /\ get_attribute fuel (TreeRebuilder.graph st') s name
       = Some (Raise NotFoundError).
Proof.
  intros Hctx Hscope Hnone Hsp.
  destruct (visit_delete st s li name flags Hctx) as (scope & Hv & Hsc).
  eexists. split; [exact Hv|]. split; [reflexivity|]. simpl.
  destruct s as [m|c|f]; [|by destruct (Hscope c)|]; simpl.
  - f_equal. assert (scope = InModule m) as -> by (by destruct Hsc).
    by apply module_getattr_deleted.
  - f_equal. by apply function_getattr_not_special.
Qed.

Lemma delete_unassigned_not_found_witness :
  exists st',
    TreeRebuilder.visit (InModule 0)
      (TreeRebuilder.CAssName (span 1 1) "x" "OP_DELETE") module_level
    = Ok (Some (TreeRebuilder.NDelete (span 1 1)
                  [Some (TreeRebuilder.NDelName (span 1 1) 0 "x")]), st')
    /\ TreeRebuilder.asscontext st' = None
    /\ get_attribute 0 (TreeRebuilder.graph st') (InModule 0) "x"
       = Some (Raise NotFoundError).
Proof.
  apply (delete_unassigned_not_found module_level (InModule 0) (span 1 1)
           "x" "OP_DELETE" 0).
  - left; reflexivity.
  - intros c; discriminate.
  - vm_compute; reflexivity.
  - vm_compute. intros H. repeat (apply elem_of_cons in H as [H|H]; [discriminate|]).
    by apply not_elem_of_nil in H.
Defined.

(** ** Inferred attribute lookup on a class *)

Section ClassLookup.

Import ClassNG.

#[local] Arguments ancestors : simpl never.
#[local] Arguments _newstyle_impl : simpl never.

Lemma gather_raise values rs e :
  gather values rs = Raise e -> e <> NotFoundError /\ Raise e ∈ rs.
Proof.
  revert values. induction rs as [|r rs IH]; intros values; [done|].
  simpl. destruct r as [l|e'].
  - intros H. destruct (IH _ H). split; [done|]. by apply elem_of_cons; right.
  - destruct e'; try (intros [= <-]; split; [done|apply list_elem_of_here]).
    intros H. destruct (IH _ H). split; [done|]. by apply elem_of_cons; right.
Qed.

Lemma std_special_attributes_raise g s name add_locals e :
  std_special_attributes g s name add_locals = Raise e -> e = NotFoundError.
Proof.
  unfold std_special_attributes. repeat case_decide; try done.
  by intros [= <-].
Qed.

(** [ClassNG.getattr] raises nothing but [NotFoundError]. *)
Lemma getattr_raise fuel : forall g context self name e,
  getattr fuel g context self name = Some (Raise e) -> e = NotFoundError.
Proof.
  induction fuel as [|fuel IH]; intros g context self name e; [done|].
  cbn [getattr]. case_decide as Hsp.
  - case_decide; [done|]. case_decide.
    { destruct (ancestors (S fuel) g false context self); done. }
    destruct (if decide (name = "__mro__") then _ else _) as [[|]|];
      simpl; try done.
    + destruct (ancestors (S fuel) g true context self); done.
    + intros [= Hstd]. by apply std_special_attributes_raise in Hstd.
  - destruct (mapM _ _) as [rs|] eqn:Hrs; simpl; [|done].
    destruct (gather _ rs) as [[|v vs]|e'] eqn:Hg.
    + by intros [= <-].
    + done.
    + intros [= <-]. apply gather_raise in Hg as [Hne Hin].
      apply mapM_Some in Hrs.
      destruct (proj1 (list_elem_of_lookup _ _) Hin) as [i Hi].
      destruct (Forall2_lookup_r _ _ _ _ _ Hrs Hi) as ([stmt c] & _ & Hc).
      by apply IH in Hc.
Qed.

Lemma generate_ok {A} (vals : list A) final :
  generate (Ok <$> vals) final = mkGenerated vals final.
Proof.
  induction vals as [|v vals IH]; simpl; [done|].
  unfold fmap in IH. by rewrite IH.
Qed.

End ClassLookup.

(** C10. When [getattr] finds [name] on the class and the lookups of
    [__get__] on the classes of the instance candidates return, the
    values [igetattr] yields match the candidates one for one: a
    non-constant instance whose class has a [__get__] attribute is
    replaced by the unknown sentinel, a non-constant instance whose
    class has none is yielded unchanged (every other candidate goes
    through [function_to_method]). *)
Theorem igetattr_descriptors (_infer_stmts : list attr_node -> infer_outcome)
    (fuel : nat) (g : Graph) (context : option (list nat)) (self : nat)
    (name : string) (stmts : list attr_node) :
  ClassNG.getattr fuel g (copy_context context) self name = Some (Ok stmts) ->
  (forall infered proxied,
     infered ∈ yielded (_infer_stmts stmts) ->
     instance_class infered = Some proxied ->
     is_Some (ClassNG.getattr fuel g (copy_context context) proxied
                              "__get__")) ->
  exists out,
    ClassNG.igetattr _infer_stmts fuel g context self name = Some out
    /\ Forall2 (descriptor_view fuel g (copy_context context) self)
               (yielded (_infer_stmts stmts)) (yields out).
Proof.
  intros Hget Hterm. unfold ClassNG.igetattr. cbv zeta. rewrite Hget.
  simpl. set (path := copy_context context) in *.
  set (handle := fun infered : inferred => _).
  assert (exists vals,
            mapM handle (yielded (_infer_stmts stmts)) = Some (Ok <$> vals)
            /\ Forall2 (descriptor_view fuel g path self)
                       (yielded (_infer_stmts stmts)) vals)
    as (vals & Hvals & Hview).
  { induction (yielded (_infer_stmts stmts)) as [|infered cands IH].
    - exists []. by split; [|constructor].
    - destruct IH as (vals & Hvals & Hview).
      { intros i p Hi. apply Hterm. by apply elem_of_cons; right. }
      assert (exists v, handle infered = Some (Ok v)
                        /\ descriptor_view fuel g path self infered v)
        as (v & Hv & Hdv).
      { pose proof (Hterm infered) as Hthis.
        destruct infered as [|p|v p|p|n]; simpl; eauto.
        - destruct (Hthis p) as [[l|e] Hd]; [apply list_elem_of_here|done| |];
            simpl; rewrite Hd; simpl; eauto.
          rewrite (getattr_raise _ _ _ _ _ _ Hd). eauto.
        - destruct (Hthis p) as [[l|e] Hd]; [apply list_elem_of_here|done| |];
            simpl; rewrite Hd; simpl; eauto.
          rewrite (getattr_raise _ _ _ _ _ _ Hd). eauto. }
      exists (v :: vals). split; [|by constructor].
      cbn [mapM]. rewrite Hv. cbn [mbind option_bind]. rewrite Hvals.
      reflexivity. }
  rewrite Hvals. simpl. rewrite generate_ok. eexists. split; [reflexivity|].
  exact Hview.
Qed.

Example igetattr_descriptor_graph :
  ClassNG.igetattr attr_candidates 2 descriptor_graph None 0 "attr"
  = Some (mkGenerated
            [Inf YES; Inf (Instance 2); Inf (ConstInst (CStr "s") 2)] None).
Proof. vm_compute. reflexivity. Qed.

Lemma igetattr_descriptors_witness :
  exists out,
    ClassNG.igetattr attr_candidates 2 descriptor_graph None 0 "attr"
    = Some out
    /\ Forall2 (descriptor_view 2 descriptor_graph (Some []) 0)
               [Instance 1; Instance 2; ConstInst (CStr "s") 2] (yields out).
Proof.
  apply (igetattr_descriptors attr_candidates 2 descriptor_graph None 0
           "attr" [Existing (StmtN AssName 7 (InClass 0))]).
  - vm_compute. reflexivity.
  - intros infered proxied Hin Hcls. simpl in Hin.
    apply elem_of_cons in Hin as [->|Hin];
      [injection Hcls as <-; vm_compute; eauto|].
    apply elem_of_cons in Hin as [->|Hin];
      [injection Hcls as <-; vm_compute; eauto|].
    apply list_elem_of_singleton in Hin as ->. discriminate.
Defined.

(** C4, counterexample. Class [C] defines [__getattr__]; the lookup of
    [__missing] on it fails, and [igetattr] raises [InferenceError]
    without yielding anything, because the name starts with [__]. *)
Lemma igetattr_dunder_raises :
  ClassNG.getattr 2 descriptor_graph (Some []) 0 "__getattr__"
    = Some (Ok [Existing (FunctionN 4)])
  /\ ClassNG.has_dynamic_getattr 2 descriptor_graph (Some []) 0
    = Some (Ok true)
  /\ ClassNG.getattr 2 descriptor_graph (Some []) 0 "__missing"
    = Some (Raise NotFoundError)
  /\ ClassNG.igetattr attr_candidates 2 descriptor_graph None 0 "__missing"
    = Some (mkGenerated [] (Some InferenceError)).
Proof. repeat split; vm_compute; reflexivity. Qed.

(** C4 (as amended). For a name that does not start with [__]: when the
    lookup of the name on the class fails and the class has a
    [__getattr__] attribute, or has none but has a [__getattribute__]
    attribute whose first definition is not in module [__builtin__],
    [igetattr] yields the unknown sentinel, and only it, and raises
    nothing. *)
Theorem igetattr_dynamic_getattr
    (_infer_stmts : list attr_node -> infer_outcome)
    (fuel : nat) (g : Graph) (context : option (list nat)) (self : nat)
    (name : string) :
  let context' := copy_context context in
  String.prefix "__" name = false ->
  ClassNG.getattr fuel g context' self name = Some (Raise NotFoundError) ->
  ((exists found,
      ClassNG.getattr fuel g context' self "__getattr__" = Some (Ok found))
   \/ (ClassNG.getattr fuel g context' self "__getattr__"
         = Some (Raise NotFoundError)
       /\ exists getattribute rest,
            ClassNG.getattr fuel g context' self "__getattribute__"
              = Some (Ok (Existing getattribute :: rest))
            /\ root_name g (node_frame getattribute) <> "__builtin__")) ->
  ClassNG.igetattr _infer_stmts fuel g context self name
  = Some (mkGenerated [Inf YES] None).
Proof.
  intros context' Hname Hnf Hdyn. unfold ClassNG.igetattr. cbv zeta.
  fold context'. rewrite Hnf. simpl.
  rewrite Hname. simpl.
  assert (ClassNG.has_dynamic_getattr fuel g context' self = Some (Ok true))
    as ->; [|done].
  unfold ClassNG.has_dynamic_getattr. case_decide; [done|].
  destruct Hdyn as [[found ->]|(-> & getattribute & rest & -> & Hroot)];
    simpl; [done|].
  by rewrite bool_decide_eq_true_2.
Qed.

Lemma igetattr_dynamic_getattr_witness :
  ClassNG.igetattr attr_candidates 2 descriptor_graph None 0 "missing"
  = Some (mkGenerated [Inf YES] None).
Proof.
  apply (igetattr_dynamic_getattr attr_candidates 2 descriptor_graph None 0
           "missing").
  - reflexivity.
  - vm_compute. reflexivity.
  - left. exists [Existing (FunctionN 4)]. vm_compute. reflexivity.
Defined.

(** ** Deferred attribute assignments *)

Section Deferred.

Import RebuildVisitor.

Lemma select_iattrs_has_table g infered t :
  select_iattrs g infered = Some t -> has_table g t = true.
Proof.
  destruct infered as [|p|v p|p|[m|c|f|k i fr]]; simpl; try done;
    match goal with |- context [bool_decide ?P] =>
      destruct (bool_decide P) eqn:E end; intros [= <-]; done.
Qed.


Lemma init_first_set_table g t d frame values :
  init_first (set_table g t d) frame values = init_first g frame values.
Proof.
  unfold init_first. rewrite scope_name_set_table.
  destruct values; [done|]. by rewrite scope_name_set_table.
Qed.

(** What [init_first] decides. *)
Lemma init_first_true g frame values :
  init_first g frame values = true <->
  scope_name g frame = "__init__"
  /\ exists first rest, values = first :: rest
                        /\ scope_name g (node_frame first) <> "__init__".
Proof.
  unfold init_first. rewrite andb_true_iff, bool_decide_eq_true.
  split; intros [Hf Hv]; (split; [done|]).
  - destruct values as [|first rest]; [done|]. exists first, rest.
    split; [done|]. apply negb_true_iff, bool_decide_eq_false in Hv. done.
  - destruct Hv as (first & rest & -> & Hne).
    by apply negb_true_iff, bool_decide_eq_false.
Qed.

Variable node : AssAttrNode.


(** After the candidate is handled, the dictionary has the node where
    the test [node in values] looks for it. *)
Lemma candidate_table g infered iattrs :
  select_iattrs g infered = Some iattrs ->
  let values := default [] (table g iattrs !! aa_attrname node) in
  assattr_node node ∉ values ->
  table (delayed_assattr_candidate node g infered) iattrs !! aa_attrname node
  = Some (if init_first g (aa_frame node) values
          then assattr_node node :: values
          else values ++ [assattr_node node]).
Proof.
  intros Hsel values Hnotin. unfold delayed_assattr_candidate.
  rewrite Hsel. fold values. rewrite decide_False by done.
  pose proof (select_iattrs_has_table _ _ _ Hsel) as Ht.
  destruct (init_first g (aa_frame node) values);
    rewrite table_set_table_eq by done; apply lookup_insert_eq.
Qed.






End Deferred.

Section Placement.

Import RebuildVisitor.

Lemma candidate_dictionary_select g infered iattrs :
  candidate_dictionary infered = Some iattrs ->
  has_table g iattrs = true ->
  select_iattrs g infered = Some iattrs.
Proof.
  destruct infered as [|p|v p|p|[m|c|f|k i fr]]; try done;
    intros [= <-] Htab; unfold select_iattrs, node_frame;
    by rewrite Htab.
Qed.

Lemma candidate_other_tables node g infered iattrs t :
  select_iattrs g infered = Some iattrs -> t <> iattrs ->
  table (delayed_assattr_candidate node g infered) t = table g t.
Proof.
  intros Hsel Hne. unfold delayed_assattr_candidate. rewrite Hsel.
  case_decide; [done|].
  destruct (init_first g (aa_frame node) _);
    by rewrite table_set_table_ne by done.
Qed.

End Placement.

(** C5. The dictionary of a candidate is the [instance_attrs] of its
    class for an instance and the [locals] for a class, a module or a
    function.  When the candidate has it: a node that the sequence bound
    to the attribute name already holds leaves the graph as it is;
    otherwise the node is put in front of the sequence when the frame of
    the node is named [__init__] and the sequence is not empty and the
    frame of its first element is not named [__init__], and at the end
    in every other case; the other dictionaries stay as they are. *)
Theorem delayed_assattr_position (g : Graph)
    (node : RebuildVisitor.AssAttrNode) (infered : inferred)
    (iattrs : table_ref) :
  candidate_dictionary infered = Some iattrs ->
  has_table g iattrs = true ->
  let values :=
    default [] (table g iattrs !! RebuildVisitor.aa_attrname node) in
  let front :=
    scope_name g (RebuildVisitor.aa_frame node) = "__init__"
    /\ exists first rest, values = first :: rest
                          /\ scope_name g (node_frame first) <> "__init__" in
  let g' := RebuildVisitor.delayed_assattr_candidate node g infered in
  (RebuildVisitor.assattr_node node ∈ values -> g' = g)
  /\ (RebuildVisitor.assattr_node node ∉ values -> front ->
      table g' iattrs !! RebuildVisitor.aa_attrname node
      = Some (RebuildVisitor.assattr_node node :: values))
  /\ (RebuildVisitor.assattr_node node ∉ values -> ~ front ->
      table g' iattrs !! RebuildVisitor.aa_attrname node
      = Some (values ++ [RebuildVisitor.assattr_node node]))
  /\ (forall t, t <> iattrs -> table g' t = table g t).
Proof.
  intros Hdict Htab values front g'.
  pose proof (candidate_dictionary_select g infered iattrs Hdict Htab) as Hsel.
  split; [|split; [|split]].
  - intros Hin. unfold g', RebuildVisitor.delayed_assattr_candidate.
    rewrite Hsel. fold values. by rewrite decide_True.
  - intros Hnotin Hfront.
    pose proof (candidate_table node g infered iattrs Hsel Hnotin) as Htable.
    fold values in Htable. apply init_first_true in Hfront.
    unfold g'. by rewrite Htable, Hfront.
  - intros Hnotin Hfront.
    pose proof (candidate_table node g infered iattrs Hsel Hnotin) as Htable.
    fold values in Htable. unfold front in Hfront.
    rewrite <- init_first_true in Hfront.
    apply not_true_is_false in Hfront.
    unfold g'. by rewrite Htable, Hfront.
  - intros t Hne. by apply (candidate_other_tables node g infered iattrs).
Qed.

Lemma delayed_assattr_position_witness :
  table (RebuildVisitor.delayed_assattr_candidate init_assattr
           class_with_attr (Instance 0)) (InstanceAttrs 0) !! "x"
  = Some [StmtN AssAttr 21 (InFunction 1); StmtN AssAttr 20 (InFunction 2)].
Proof.
  refine (proj1 (proj2 (delayed_assattr_position class_with_attr init_assattr
                          (Instance 0) (InstanceAttrs 0) _ _)) _ _).
  - reflexivity.
  - reflexivity.
  - vm_compute. intros H. apply list_elem_of_singleton in H. discriminate.
  - split; [reflexivity|].
    exists (StmtN AssAttr 20 (InFunction 2)), []. split; [reflexivity|].
    vm_compute. discriminate.
Defined.

(** C5, against the instance attributes of a class candidate.  The
    node of [self.x = ...] in [__init__] is resolved against the class
    [C] itself, whose [instance_attrs] have [x] from another method:
    the node goes to the [locals] of the class, and the sequence of the
    [instance_attrs] gets it neither in front nor at the end. *)
Lemma delayed_assattr_class_candidate :
  table (RebuildVisitor.delayed_assattr_candidate init_assattr
           class_with_attr (Node (ClassN 0))) (InstanceAttrs 0) !! "x"
  = Some [StmtN AssAttr 20 (InFunction 2)]
  /\ table (RebuildVisitor.delayed_assattr_candidate init_assattr
              class_with_attr (Node (ClassN 0))) (Locals (InClass 0)) !! "x"
     = Some [StmtN AssAttr 21 (InFunction 1)].
Proof. split; vm_compute; reflexivity. Qed.

(** The test looks at the name of the frame only: an assignment at the
    top of a module that is named [__init__], outside any function, is
    put in front as well. *)
Example delayed_assattr_module_named_init :
  table (RebuildVisitor.delayed_assattr_candidate toplevel_assattr
           module_named_init (Instance 0)) (InstanceAttrs 0) !! "x"
  = Some [StmtN AssAttr 22 (InModule 0); StmtN AssAttr 20 (InFunction 2)].
Proof. vm_compute; reflexivity. Qed.


Example delayed_assattr_class_with_attr :
  let g := RebuildVisitor.delayed_assattr receiver_inference class_with_attr
             init_assattr in
  table g (InstanceAttrs 0) !! "x"
    = Some [StmtN AssAttr 21 (InFunction 1); StmtN AssAttr 20 (InFunction 2)]
  /\ table g (Locals (InClass 0)) !! "x"
    = Some [StmtN AssAttr 21 (InFunction 1)].
Proof. split; vm_compute; reflexivity. Qed.



(** C9. A candidate that is an instance of a builtin value kind (a
    constant, or a tuple, list, dict, ...) leaves the graph as it is:
    no [instance_attrs] or [locals] dictionary gets or loses an entry.
    The whole resolution is the one of the remaining candidates. *)
Theorem delayed_assattr_skips_builtin_values
    (expr_infer : Graph -> nat -> infer_outcome) (g : Graph)
    (node : RebuildVisitor.AssAttrNode) :
  (forall g' v proxied,
     RebuildVisitor.delayed_assattr_candidate node g' (ConstInst v proxied)
     = g')
  /\ (forall g' proxied,
        RebuildVisitor.delayed_assattr_candidate node g' (BuiltinInst proxied)
        = g')
  /\ RebuildVisitor.delayed_assattr expr_infer g node
     = foldl (RebuildVisitor.delayed_assattr_candidate node) g
             (filter (fun infered => builtin_value infered = false)
                     (RebuildVisitor.receiver_candidates expr_infer g node)).
Proof.
  split; [done|]. split; [done|].
  unfold RebuildVisitor.delayed_assattr.
  generalize (RebuildVisitor.receiver_candidates expr_infer g node) as cands.
  intros cands. revert g.
  induction cands as [|c cands IH]; intros g; [done|].
  destruct (builtin_value c) eqn:Hb.
  - rewrite filter_cons_False by (by rewrite Hb). simpl. rewrite <- IH.
    by destruct c.
  - rewrite filter_cons_True by done. simpl. apply IH.
Qed.

(** * Further properties of the scoped nodes *)

(** ** [remove_nodes] *)

(** X1. When the wrapped lookup returns a list, [remove_nodes] answers
    what is left of it once the nodes of the removed class are dropped,
    in the order of the list, and raises [NotFoundError] when nothing is
    left; an exception of the wrapped lookup passes through. *)
Theorem remove_nodes_sound (cls : node_kind) (found : list attr_node) :
  let kept := filter (fun n => is_kind cls n = false) found in
  remove_nodes cls (Ok found)
  = (if decide (kept = []) then Raise NotFoundError else Ok kept)
  /\ Forall (fun n => is_kind cls n = false) kept
  /\ kept `sublist_of` found
  /\ forall e, remove_nodes cls (Raise e) = Raise e.
Proof.
  cbv zeta. split; [|split; [|split]].
  - unfold remove_nodes. destruct (filter _ found) as [|n l'] eqn:Hf.
    + by rewrite decide_True.
    + by rewrite decide_False.
  - apply Forall_forall. intros x Hx.
    by apply list_elem_of_filter in Hx as [Hx _].
  - apply sublist_filter.
  - reflexivity.
Qed.

Example remove_nodes_deleted_name :
  remove_nodes DelName
    (Ok [Existing (StmtN AssName 1 (InModule 0));
         Existing (StmtN DelName 2 (InModule 0));
         Existing (StmtN AssName 3 (InModule 0))])
  = Ok [Existing (StmtN AssName 1 (InModule 0));
        Existing (StmtN AssName 3 (InModule 0))]
  /\ remove_nodes DelName (Ok [Existing (StmtN DelName 2 (InModule 0))])
     = Raise NotFoundError.
Proof. split; reflexivity. Qed.

(** ** [ClassNG.getattr] *)

Section ClassGetattr.

Import ClassNG.

#[local] Arguments ancestors : simpl never.
#[local] Arguments _newstyle_impl : simpl never.

Lemma gather_prefix values rs l :
  gather values rs = Ok l -> exists rest, l = values ++ rest.
Proof.
  revert values. induction rs as [|r rs IH]; intros values.
  - intros [= <-]. exists []. by rewrite app_nil_r.
  - simpl. destruct r as [l'|e].
    + intros H. destruct (IH _ H) as [rest ->]. exists (l' ++ rest).
      by rewrite app_assoc.
    + destruct e; try done. apply IH.
Qed.

Lemma gather_inherited values rs l :
  gather values rs = Ok l -> l = values ++ inherited_values rs.
Proof.
  revert values. induction rs as [|r rs IH]; intros values.
  - intros [= <-]. unfold inherited_values. simpl. by rewrite app_nil_r.
  - cbn [gather]. destruct r as [l'|e].
    + intros H. rewrite (IH _ H). unfold inherited_values.
      cbn [omap list_omap mjoin list_join]. by rewrite app_assoc.
    + destruct e; try done. intros H. by rewrite (IH _ H).
Qed.

Lemma gather_Forall (P : attr_node -> Prop) values rs l :
  gather values rs = Ok l -> Forall P values ->
  (forall l', Ok l' ∈ rs -> Forall P l') -> Forall P l.
Proof.
  revert values. induction rs as [|r rs IH]; intros values.
  - by intros [= <-].
  - simpl. intros Hg Hv Hrs. destruct r as [l'|e].
    + apply (IH _ Hg).
      * apply Forall_app. split; [done|]. apply Hrs, list_elem_of_here.
      * intros l'' Hin. apply Hrs. by apply elem_of_cons; right.
    + destruct e; try done. apply (IH _ Hg Hv).
      intros l'' Hin. apply Hrs. by apply elem_of_cons; right.
Qed.

Lemma std_special_attributes_nonempty g s name add_locals l :
  std_special_attributes g s name add_locals = Ok l -> l <> [].
Proof.
  unfold std_special_attributes. repeat case_decide; by intros [= <-].
Qed.

Lemma getattr_nonempty fuel g context self name l :
  getattr fuel g context self name = Some (Ok l) -> l <> [].
Proof.
  destruct fuel as [|fuel]; [done|]. cbn [getattr]. case_decide as Hsp.
  - case_decide; [by intros [= <-]|]. case_decide.
    { destruct (ancestors (S fuel) g false context self); [|done].
      by intros [= <-]. }
    destruct (if decide (name = "__mro__") then _ else _) as [[|]|];
      simpl; try done.
    + destruct (ancestors (S fuel) g true context self); [|done].
      by intros [= <-].
    + intros [= Hstd]. by apply std_special_attributes_nonempty in Hstd.
  - destruct (mapM _ _) as [rs|]; simpl; [|done].
    destruct (gather _ rs) as [[|v vs]|e]; try done. by intros [= <-].
Qed.

Lemma getattr_existing fuel : forall g context self name l,
  name ∉ special_attributes ->
  getattr fuel g context self name = Some (Ok l) -> Forall is_existing l.
Proof.
  induction fuel as [|fuel IH]; intros g context self name l Hsp; [done|].
  cbn [getattr]. rewrite decide_False by done.
  destruct (mapM _ _) as [rs|] eqn:Hrs; simpl; [|done].
  destruct (gather _ rs) as [[|v vs]|e] eqn:Hg; try done.
  intros [= <-]. apply (gather_Forall _ _ _ _ Hg).
  - apply Forall_fmap, Forall_forall. done.
  - intros l' Hin. apply mapM_Some in Hrs.
    destruct (proj1 (list_elem_of_lookup _ _) Hin) as [i Hi].
    destruct (Forall2_lookup_r _ _ _ _ _ Hrs Hi) as ([stmt c] & _ & Hc).
    by eapply IH.
Qed.

End ClassGetattr.

(** X2. A call of [ClassNG.getattr] that ends by raising raises
    [NotFoundError], whatever the name and the context: no other
    exception comes out of the lookups on the bases.  The calls that do
    not end, as on a cyclic hierarchy without a context, are not
    covered. *)
Theorem class_getattr_raises_not_found (fuel : nat) (g : Graph)
    (context : option (list nat)) (self : nat) (name : string) (e : exn) :
  ClassNG.getattr fuel g context self name = Some (Raise e) ->
  e = NotFoundError.
Proof. apply getattr_raise. Qed.

Lemma class_getattr_raises_not_found_witness : NotFoundError = NotFoundError.
Proof.
  apply (class_getattr_raises_not_found 1 one_class None 0 "x" NotFoundError).
  vm_compute. reflexivity.
Defined.

(** X3. A list returned by [ClassNG.getattr] is never empty, so that
    taking its first element is safe. *)
Theorem class_getattr_nonempty (fuel : nat) (g : Graph)
    (context : option (list nat)) (self : nat) (name : string)
    (l : list attr_node) :
  ClassNG.getattr fuel g context self name = Some (Ok l) -> l <> [].
Proof. apply getattr_nonempty. Qed.

Lemma class_getattr_nonempty_witness :
  [Existing (FunctionN 3)] <> [].
Proof.
  apply (class_getattr_nonempty 1 descriptor_graph None 1 "__get__").
  vm_compute. reflexivity.
Defined.

(** X4. For a name that is not a special attribute, the result of
    [ClassNG.getattr] is the bindings of the class's own [locals]
    followed by what the same lookup returns on each of the direct
    bases, in the order of the bases. *)
Theorem class_getattr_own_locals_first (fuel : nat) (g : Graph)
    (context : option (list nat)) (self : nat) (name : string)
    (own : list node) (l : list attr_node) :
  name ∉ ClassNG.special_attributes ->
  locals_of g (InClass self) !! name = Some own ->
  ClassNG.getattr (S fuel) g context self name = Some (Ok l) ->
  exists rs,
    mapM (fun '(stmt, classnode) =>
            ClassNG.getattr fuel g (cons stmt <$> context) classnode name)
         (ClassNG.direct_ancestors g (default [] context) self)
    = Some rs
    /\ l = (Existing <$> own) ++ inherited_values rs.
Proof.
  intros Hsp Hown.
  cbn [ClassNG.getattr]. rewrite decide_False by done. rewrite Hown.
  destruct (mapM _ _) as [rs|]; simpl; [|done].
  destruct (ClassNG.gather _ rs) as [[|v vs]|e] eqn:Hg; try done.
  intros [= <-]. exists rs. split; [done|]. by apply gather_inherited in Hg.
Qed.

Lemma class_getattr_own_locals_first_witness :
  exists rs,
    mapM (fun '(stmt, classnode) =>
            ClassNG.getattr 1 overriding_pair (cons stmt <$> None) classnode
                            "m")
         (ClassNG.direct_ancestors overriding_pair (default [] None) 1)
    = Some rs
    /\ [Existing (FunctionN 5); Existing (FunctionN 6)]
       = (Existing <$> [FunctionN 5]) ++ inherited_values rs.
Proof.
  apply (class_getattr_own_locals_first 1 overriding_pair None 1 "m").
  - vm_compute. intros H.
    repeat (apply elem_of_cons in H as [H|H]; [discriminate|]).
    by apply not_elem_of_nil in H.
  - vm_compute. reflexivity.
  - vm_compute. reflexivity.
Defined.

Example class_getattr_overriding_pair :
  ClassNG.getattr 2 overriding_pair None 1 "m"
  = Some (Ok [Existing (FunctionN 5); Existing (FunctionN 6)])
  /\ inherited_values [Ok [Existing (FunctionN 6)]]
     = [Existing (FunctionN 6)].
Proof. split; vm_compute; reflexivity. Qed.

(** X5. [has_dynamic_getattr] never raises: whenever the lookups it
    makes return, its result is a boolean. *)
Theorem has_dynamic_getattr_returns_bool (fuel : nat) (g : Graph)
    (context : option (list nat)) (self : nat) (r : res bool) :
  ClassNG.has_dynamic_getattr fuel g context self = Some r ->
  exists b, r = Ok b.
Proof.
  unfold ClassNG.has_dynamic_getattr. case_decide; [intros [= <-]; eauto|].
  destruct (ClassNG.getattr fuel g context self "__getattr__")
    as [[l|e]|] eqn:Hga; simpl; [intros [= <-]; eauto| |done].
  rewrite (getattr_raise _ _ _ _ _ _ Hga).
  destruct (ClassNG.getattr fuel g context self "__getattribute__")
    as [[l|e']|] eqn:Hgb; simpl; [| |done].
  - pose proof (getattr_nonempty _ _ _ _ _ _ Hgb) as Hne.
    assert (Forall is_existing l) as Hex.
    { eapply getattr_existing; [|done]. unfold ClassNG.special_attributes.
      rewrite !not_elem_of_cons. repeat split; try done.
      apply not_elem_of_nil. }
    destruct l as [|[n| | |] rest]; try done;
      try (by apply Forall_cons in Hex as [Hex _]).
    intros [= <-]. eauto.
  - rewrite (getattr_raise _ _ _ _ _ _ Hgb). intros [= <-]. eauto.
Qed.

Lemma has_dynamic_getattr_returns_bool_witness : exists b, Ok true = Ok b.
Proof.
  apply (has_dynamic_getattr_returns_bool 1 descriptor_graph None 0).
  vm_compute. reflexivity.
Defined.

(** ** [ClassNG.ancestors] *)

Section AncestorsMore.

Import ClassNG.

Lemma mapM_total {A B} (f : A -> option B) (h : A -> B) (l : list A) :
  (forall x, x ∈ l -> f x = Some (h x)) -> mapM f l = Some (h <$> l).
Proof.
  induction l as [|x l IH]; intros H; [done|].
  cbn [mapM]. rewrite (H x) by apply list_elem_of_here.
  cbn [mbind option_bind]. rewrite IH; [done|].
  intros y Hy. apply H. by apply elem_of_cons; right.
Qed.

(** What one base expression contributes to the direct ancestors. *)
Lemma direct_candidates self (cands : list inferred) :
  mjoin ((fun baseobj =>
            match baseobj with
            | Node (ClassN c) => if decide (c = self) then [] else [c]
            | _ => []
            end) <$> cands)
  = filter (fun c => c <> self)
      (omap (fun i => match i with Node (ClassN c) => Some c | _ => None end)
            cands).
Proof.
  induction cands as [|i cands IH]; [done|].
  destruct i as [| | | |[m|c|f|k id fr]]; simpl; try exact IH.
  destruct (decide (c = self)) as [->|Hne]; simpl.
  - rewrite filter_cons_False by (by intros H; apply H). exact IH.
  - rewrite filter_cons_True by done. f_equal. exact IH.
Qed.

End AncestorsMore.

(** X6. Whatever the class hierarchy (cycles, self-references and
    diamonds included), [ancestors] called without a context returns,
    for both values of [recurs]: any amount of fuel above the number of
    base expressions of the graph is enough. *)
Theorem ancestors_terminates (g : Graph) (recurs : bool) (self fuel : nat) :
  size (base_nodes g) < fuel ->
  is_Some (ClassNG.ancestors fuel g recurs None self).
Proof.
  intros Hfuel. apply ancestors_total.
  eapply Nat.le_lt_trans; [|exact Hfuel]. apply subseteq_size.
  intros x. rewrite elem_of_difference. tauto.
Qed.

Lemma ancestors_terminates_witness :
  is_Some (ClassNG.ancestors 3 cyclic_pair true None 1).
Proof.
  apply (ancestors_terminates cyclic_pair true 1 3). vm_compute. lia.
Defined.

(** X7. The class whose ancestors are computed is never one of the
    classes yielded, be it a direct base of itself or reached again
    through its bases. *)
Theorem ancestors_excludes_self (fuel : nat) (g : Graph) (recurs : bool)
    (context : option (list nat)) (self : nat) (l : list nat) :
  ClassNG.ancestors fuel g recurs context self = Some l -> self ∉ l.
Proof. apply ancestors_not_self. Qed.

Lemma ancestors_excludes_self_witness : 0 ∉ [1].
Proof.
  apply (ancestors_excludes_self 3 cyclic_pair true None 0). vm_compute.
  reflexivity.
Defined.

(** X8. Without recursion and without a context, [ancestors] yields the
    classes that the base expressions infer to, in the order of the
    bases and of the inference results, duplicates included; results
    that are not classes and the class itself are skipped. *)
Theorem ancestors_direct (g : Graph) (self fuel : nat) :
  ClassNG.ancestors (S fuel) g false None self
  = Some (filter (fun c => c <> self) (declared_bases g self)).
Proof.
  cbn [ClassNG.ancestors]. cbn [default from_option id].
  rewrite (mapM_total _
             (fun stmt => filter (fun c => c <> self)
                (class_candidates
                   (default (mkOutcome [] true) (inferences g !! stmt))))).
  - cbn [fmap option_fmap option_map]. f_equal. unfold declared_bases.
    induction (bases_of g self) as [|stmt bases IH]; [done|].
    cbn [fmap list_fmap mjoin list_join mbind list_bind].
    rewrite filter_app. f_equal. exact IH.
  - intros stmt _. unfold infer. rewrite decide_False by apply not_elem_of_nil.
    rewrite (mapM_total _
               (fun baseobj =>
                  match baseobj with
                  | Node (ClassN c) => if decide (c = self) then [] else [c]
                  | _ => []
                  end)).
    + cbn [fmap option_fmap option_map]. f_equal. apply direct_candidates.
    + intros i _. destruct i as [| | | |[m|c|f|k id fr]]; try done.
      by case_decide.
Qed.

(** X9. Every class yielded without recursion is also yielded with
    recursion, under the same context. *)
Theorem ancestors_direct_among_all (f1 f2 : nat) (g : Graph)
    (context : option (list nat)) (self : nat) (direct all : list nat) :
  ClassNG.ancestors f1 g false context self = Some direct ->
  ClassNG.ancestors f2 g true context self = Some all ->
  forall c, c ∈ direct -> c ∈ all.
Proof.
  intros Hd Ha c Hc. destruct f1 as [|f1]; [done|].
  destruct (ancestors_elem _ _ _ _ _ _ _ Hd Hc)
    as (stmt & c0 & Hstmt & _ & Hi & Hne & Hcase).
  destruct Hcase as [->|(Hr & _)]; [|done].
  destruct f2 as [|f2]; [done|]. cbn [ClassNG.ancestors] in Ha.
  destruct (mjoin_mapM_sub _ _ _ _ Ha Hstmt) as (ys & Hys & Hsub).
  apply Hsub.
  destruct (mjoin_mapM_sub _ _ _ _ Hys Hi) as (zs & Hzs & Hsub').
  apply Hsub'. simpl in Hzs. rewrite decide_False in Hzs by done.
  destruct (ClassNG.ancestors f2 g true _ c0); simpl in Hzs; [|done].
  injection Hzs as <-. apply list_elem_of_here.
Qed.

Lemma ancestors_direct_among_all_witness :
  ClassNG.ancestors 1 cyclic_pair false None 0 = Some [1]
  /\ ClassNG.ancestors 3 cyclic_pair true None 0 = Some [1]
  /\ 1 ∈ [1].
Proof.
  split; [vm_compute; reflexivity|]. split; [vm_compute; reflexivity|].
  apply (ancestors_direct_among_all 1 3 cyclic_pair None 0 [1] [1]).
  - vm_compute; reflexivity.
  - vm_compute; reflexivity.
  - apply list_elem_of_here.
Defined.

(** ** [ClassNG.igetattr] *)

(** X10. For a name that starts with [__], a failed lookup makes
    [igetattr] raise [InferenceError] without yielding anything and
    without consulting [has_dynamic_getattr]: the dynamic attribute
    hooks of the class make no difference. *)
Theorem igetattr_dunder_not_found
    (_infer_stmts : list attr_node -> infer_outcome) (fuel : nat)
    (g : Graph) (context : option (list nat)) (self : nat) (name : string) :
  String.prefix "__" name = true ->
  ClassNG.getattr fuel g (copy_context context) self name
    = Some (Raise NotFoundError) ->
  ClassNG.igetattr _infer_stmts fuel g context self name
  = Some (mkGenerated [] (Some InferenceError)).
Proof.
  intros Hname Hnf. unfold ClassNG.igetattr. cbv zeta. rewrite Hnf. simpl.
  by rewrite Hname.
Qed.

Lemma igetattr_dunder_not_found_witness :
  ClassNG.igetattr attr_candidates 1 descriptor_graph None 0 "__private"
  = Some (mkGenerated [] (Some InferenceError)).
Proof.
  apply (igetattr_dunder_not_found attr_candidates 1 descriptor_graph None 0
           "__private").
  - reflexivity.
  - vm_compute. reflexivity.
Defined.

(** * Further properties of the rebuilder *)

(** ** What a visit leaves alone *)

Section VisitInvariant.

Import TreeRebuilder.

Lemma keeps_context_refl st : keeps_context st st.
Proof. unfold keeps_context. auto. Qed.

Lemma keeps_context_trans st1 st2 st3 :
  keeps_context st1 st2 -> keeps_context st2 st3 -> keeps_context st1 st3.
Proof.
  unfold keeps_context. intros (-> & ? & ?) (-> & ? & ?).
  split; [done|]. split; [lia|auto].
Qed.

Lemma keeping_ret {A} (a : A) : keeping (ret a).
Proof. intros st a' st' [= <- <-]. apply keeps_context_refl. Qed.

Lemma keeping_bind {A B} (m : M A) (k : A -> M B) :
  keeping m -> (forall a, keeping (k a)) -> keeping (m ≫= k).
Proof.
  intros Hm Hk st b st' H.
  unfold mbind, M_bind, bind in H.
  destruct (m st) as [[a st1]|e] eqn:Hmst; [|done].
  eapply keeps_context_trans; [by eapply Hm|by eapply Hk].
Qed.

Lemma keeping_raise {A} e : keeping (@raise A e).
Proof. intros st a st' H. done. Qed.

Lemma keeping_fresh : keeping fresh.
Proof.
  intros st a st' [= <- <-]. unfold keeps_context. simpl.
  split; [done|]. split; [lia|done].
Qed.

Lemma keeping_save_assignment frame k id name :
  keeping (_save_assignment frame k id name).
Proof. intros st a st' [= <- <-]. unfold keeps_context. simpl. auto. Qed.

Lemma keeping_visit_delname frame li name :
  keeping (visit_delname frame li name).
Proof.
  unfold visit_delname. apply keeping_bind; [apply keeping_fresh|].
  intros id. apply keeping_bind; [apply keeping_save_assignment|].
  intros _. apply keeping_ret.
Qed.

Lemma keeping_visit_assname frame li name flags :
  keeping (visit_assname frame li name flags).
Proof.
  intros st a st' H. unfold visit_assname in H.
  unfold mbind at 1, M_bind at 1, bind at 1, get_asscontext in H.
  destruct (asscontext st) as [[| | |]|] eqn:Hctx.
  - case_decide; [|done]. revert H.
    apply (keeping_bind fresh); [apply keeping_fresh|]. intros id.
    apply keeping_bind; [apply keeping_save_assignment|].
    intros _. apply keeping_ret.
  - case_decide; [|done]. revert H.
    apply (keeping_bind fresh); [apply keeping_fresh|]. intros id.
    apply keeping_bind; [apply keeping_save_assignment|].
    intros _. apply keeping_ret.
  - by apply keeping_visit_delname in H.
  - by apply keeping_ret in H.
  - unfold mbind, M_bind, bind, set_asscontext, visit_delname, fresh,
      _save_assignment, ret in H. simpl in H. injection H as <- <-.
    unfold keeps_context. simpl. split; [done|]. split; [lia|done].
Qed.

Lemma keeping_visit_name li name : keeping (visit_name li name).
Proof.
  unfold visit_name. destruct (CONST_NAME_TRANSFORMS name);
    [apply keeping_ret|].
  intros st a st' H. unfold mbind, M_bind, bind, get_asscontext in H.
  destruct (asscontext st) as [[| | |]|] eqn:Hctx;
    try (by apply keeping_ret in H).
  revert H. apply (keeping_bind fresh); [apply keeping_fresh|].
  intros id. apply keeping_ret.
Qed.

(** Setting a context, running, and setting [None]. *)
Lemma resetting_under {A B} ctx (m : M A) (k : A -> M B) :
  (forall st a st', m st = Ok (a, st') ->
     _global_names st' = _global_names st /\ next_id st <= next_id st') ->
  (forall a, keeping (k a)) ->
  keeping (set_asscontext ctx ≫= fun _ =>
             m ≫= fun a => set_asscontext None ≫= fun _ => k a).
Proof.
  intros Hm Hk st b st' H.
  unfold mbind, M_bind, bind, set_asscontext in H. simpl in H.
  destruct (m _) as [[a st1]|e] eqn:Hmst; [|done].
  apply Hm in Hmst as [Hg Hn]. simpl in *.
  apply Hk in H. destruct H as (Hg' & Hn' & Hc'). simpl in *.
  unfold keeps_context. split; [congruence|]. split; [lia|].
  intros _. by apply Hc'.
Qed.

Lemma keeping_weaken {A} (m : M A) :
  keeping m ->
  forall st a st', m st = Ok (a, st') ->
    _global_names st' = _global_names st /\ next_id st <= next_id st'.
Proof. intros Hm st a st' H. apply Hm in H as (? & ? & _). done. Qed.

Lemma keeping_visit_bitop li op (operands : list (M (option anode))) :
  Forall keeping operands -> keeping (visit_bitop li op operands).
Proof.
  revert li. induction operands as [|final front IH]; intros li Hall.
  - apply keeping_raise.
  - apply Forall_cons in Hall as [Hfinal Hfront]. cbn [visit_bitop].
    apply keeping_bind; [done|]. intros rhs.
    apply keeping_bind; [|intros lhs; apply keeping_ret].
    destruct front as [|first [|second rest]]; [done| |by apply IH].
    by apply Forall_cons in Hfront as [? _].
Qed.

Lemma keeping_visit_all (visit_one : cnode -> M (option anode)) l :
  Forall (fun n => keeping (visit_one n)) l ->
  keeping ((fix visit_all (children : list cnode)
              : M (list (option anode)) :=
              match children with
              | [] => ret []
              | child :: rest =>
                c ← visit_one child; cs ← visit_all rest; ret (c :: cs)
              end) l).
Proof.
  induction l as [|x l IH]; intros Hall; [apply keeping_ret|].
  apply Forall_cons in Hall as [Hx Hl].
  apply keeping_bind; [done|]. intros c.
  apply keeping_bind; [by apply IH|]. intros cs. apply keeping_ret.
Qed.

Lemma keeping_elif_lines li tests : keeping (elif_lines li tests).
Proof.
  unfold elif_lines. destruct (tests !! 1) as [[test body]|];
    [|apply keeping_raise].
  destruct (fromlineno (lines_of test)); [|apply keeping_raise].
  destruct (last body) as [stmt|]; [|apply keeping_raise].
  destruct (tolineno (lines_of stmt)); [|apply keeping_raise].
  destruct (tolineno (lines_of test)); [apply keeping_ret|apply keeping_raise].
Qed.

Lemma keeping_visit frame (n : cnode) : keeping (visit frame n).
Proof.
  induction n using cnode_children_ind; cbn [visit].
  - apply keeping_visit_name.
  - apply keeping_ret.
  - apply keeping_ret.
  - apply keeping_visit_assname.
  - destruct (lineno li); [|apply keeping_ret].
    apply (resetting_under (Some Dis) (visit frame n)
             (fun value => ret (Some (NDiscard li value)))).
    + by apply keeping_weaken.
    + intros a. apply keeping_ret.
  - apply (resetting_under (Some Aug) (visit frame n1)
             (fun target' => visit frame n2 ≫= fun value =>
                ret (Some (NAugAssign li target' op value)))).
    + by apply keeping_weaken.
    + intros a. apply keeping_bind; [done|]. intros v. apply keeping_ret.
  - apply keeping_visit_bitop. apply Forall_rev, Forall_map.
    eapply Forall_impl; [exact H|]. done.
  - apply keeping_bind; [done|]. intros l'.
    apply keeping_bind; [done|]. intros r'. apply keeping_ret.
  - destruct tests as [|[test body] elifs]; [apply keeping_raise|].
    apply Forall_cons in H as [[Htest Hbody] Helifs]. simpl in Htest, Hbody.
    apply keeping_bind; [done|]. intros test'.
    apply keeping_bind; [by apply keeping_visit_all|]. intros body'.
    apply keeping_bind; [|intros orelse; apply keeping_ret].
    generalize ((test, body) :: elifs) as tests. intros tests.
    induction elifs as [|[t b] rest IH].
    + destruct else_ as [stmts|]; [|apply keeping_ret].
      by apply keeping_visit_all.
    + apply Forall_cons in Helifs as [[Ht Hb] Hrest]. simpl in Ht, Hb.
      apply keeping_bind; [apply keeping_elif_lines|]. intros lines.
      apply keeping_bind; [done|]. intros t'.
      apply keeping_bind; [by apply keeping_visit_all|]. intros b'.
      apply keeping_bind; [by apply IH|]. intros o. apply keeping_ret.
Qed.

End VisitInvariant.

(** X11. For a tree made of names, constants, [pass], assigned names,
    expression statements, augmented assignments, bit and arithmetic
    operations and conditionals, a visit that returns leaves the
    [_global_names] stack as it was, gives out identities only upwards,
    and, when it starts outside any assignment context, ends outside
    any: the context set for a sub-expression is reset after it. *)
Theorem visit_keeps_context (frame : scope_ref) (node : TreeRebuilder.cnode)
    (st st' : TreeRebuilder.RebuildState) (r : option TreeRebuilder.anode) :
  TreeRebuilder.visit frame node st = Ok (r, st') ->
  TreeRebuilder._global_names st' = TreeRebuilder._global_names st
  /\ TreeRebuilder.next_id st <= TreeRebuilder.next_id st'
  /\ (TreeRebuilder.asscontext st = None ->
      TreeRebuilder.asscontext st' = None).
Proof. intros H. by apply keeping_visit in H. Qed.

Lemma visit_keeps_context_witness :
  TreeRebuilder._global_names (TreeRebuilder.mkState None [] one_class 1)
  = TreeRebuilder._global_names module_level
  /\ TreeRebuilder.next_id module_level <= 1
  /\ (TreeRebuilder.asscontext module_level = None ->
      TreeRebuilder.asscontext (TreeRebuilder.mkState None [] one_class 1)
      = None).
Proof.
  apply (visit_keeps_context (InModule 0)
           (TreeRebuilder.CAugAssign (span 1 1)
              (TreeRebuilder.CName (span 1 1) "x") "+="
              (TreeRebuilder.CName (span 1 1) "y"))
           module_level (TreeRebuilder.mkState None [] one_class 1)
           (Some (TreeRebuilder.NAugAssign (span 1 1)
                    (Some (TreeRebuilder.NAssName (span 1 1) 0 "x")) "+="
                    (Some (TreeRebuilder.NName (span 1 1) "y"))))).
  reflexivity.
Defined.

(** ** Chains of bit operations and conditionals, in general *)

(** X12. For a chain of bit operations with at least three operands,
    rebuilding visits the last operand, then the node made on the fly
    from all the operands but the last (a bit operation of the same
    class without line information), and makes the binary node of the
    two: [newnode.right = visit(nodes[-1])], [newnode.left =
    visit(bitop(nodes[:-1]))]. *)
Theorem visit_binop_chain (frame : scope_ref) (li : TreeRebuilder.lineinfo)
    (cls : TreeRebuilder.bitop) (front : list TreeRebuilder.cnode)
    (final : TreeRebuilder.cnode) (st : TreeRebuilder.RebuildState) :
  2 <= length front ->
  TreeRebuilder.visit frame (TreeRebuilder.CBitop li cls (front ++ [final])) st
  = (rhs ← TreeRebuilder.visit frame final;
     lhs ← TreeRebuilder.visit frame
             (TreeRebuilder.CBitop TreeRebuilder.no_lines cls front);
     TreeRebuilder.ret
       (Some (TreeRebuilder.NBinOp li (TreeRebuilder.bitop_symbol cls)
                                   lhs rhs))) st.
Proof.
  intros Hlen. cbn [TreeRebuilder.visit].
  rewrite map_app, rev_app_distr. cbn [map rev app].
  cbn [TreeRebuilder.visit_bitop].
  destruct (rev (map (TreeRebuilder.visit frame) front))
    as [|a [|b rest]] eqn:Hrev.
  - apply (f_equal (@length _)) in Hrev.
    rewrite length_rev, length_map in Hrev. simpl in Hrev. lia.
  - apply (f_equal (@length _)) in Hrev.
    rewrite length_rev, length_map in Hrev. simpl in Hrev. lia.
  - reflexivity.
Qed.

Lemma visit_binop_chain_witness :
  TreeRebuilder.visit (InModule 0)
    (TreeRebuilder.CBitop (span 1 1) TreeRebuilder.Bitor
       ([TreeRebuilder.CName (span 1 1) "a";
         TreeRebuilder.CName (span 1 1) "b";
         TreeRebuilder.CName (span 1 1) "c"]
        ++ [TreeRebuilder.CName (span 1 1) "d"])) module_level
  = (rhs ← TreeRebuilder.visit (InModule 0)
             (TreeRebuilder.CName (span 1 1) "d");
     lhs ← TreeRebuilder.visit (InModule 0)
             (TreeRebuilder.CBitop TreeRebuilder.no_lines TreeRebuilder.Bitor
                [TreeRebuilder.CName (span 1 1) "a";
                 TreeRebuilder.CName (span 1 1) "b";
                 TreeRebuilder.CName (span 1 1) "c"]);
     TreeRebuilder.ret
       (Some (TreeRebuilder.NBinOp (span 1 1)
                (TreeRebuilder.bitop_symbol TreeRebuilder.Bitor) lhs rhs)))
      module_level.
Proof.
  apply (visit_binop_chain (InModule 0) (span 1 1) TreeRebuilder.Bitor).
  simpl. lia.
Defined.

Section IfChain.

Import TreeRebuilder.

Lemma visit_if_unfold frame li test body elifs else_ :
  visit frame (CIf li ((test, body) :: elifs) else_)
  = (test' ← visit frame test;
     body' ← visit_stmts frame body;
     orelse ←
       (fix visit_elifs (l : list (cnode * list cnode))
          : M (list (option anode)) :=
          match l with
          | [] => _init_else_node frame else_
          | (t, b) :: rest =>
            lines ← elif_lines li ((test, body) :: elifs);
            t' ← visit frame t;
            b' ← visit_stmts frame b;
            orelse ← visit_elifs rest;
            ret [Some (NIf lines.1 lines.2 t' b' orelse)]
          end) elifs;
     ret (Some (NIf li None test' body' orelse))).
Proof. reflexivity. Qed.

(** The else block is rebuilt last and ends up [length elifs]
    conditionals below the outer one. *)
Lemma visit_elifs_else frame li tests else_ elifs :
  forall st orelse st',
    (fix visit_elifs (l : list (cnode * list cnode))
       : M (list (option anode)) :=
       match l with
       | [] => _init_else_node frame else_
       | (t, b) :: rest =>
         lines ← elif_lines li tests;
         t' ← visit frame t;
         b' ← visit_stmts frame b;
         orelse ← visit_elifs rest;
         ret [Some (NIf lines.1 lines.2 t' b' orelse)]
       end) elifs st = Ok (orelse, st') ->
    exists st1 block,
      _init_else_node frame else_ st1 = Ok (block, st')
      /\ chained_orelse (length elifs) orelse = Some block.
Proof.
  induction elifs as [|[t b] rest IH]; intros st orelse st' H.
  - exists st, orelse. by split.
  - apply bind_inv in H as (lines & sta & _ & H).
    apply bind_inv in H as (t' & stb & _ & H).
    apply bind_inv in H as (b' & stc & _ & H).
    apply bind_inv in H as (orelse' & std & Hrest & Hret).
    injection Hret as <- <-.
    destruct (IH _ _ _ Hrest) as (st1 & block & Helse & Hchain).
    exists st1, block. split; [done|]. exact Hchain.
Qed.

End IfChain.

(** X13. When an [if] with any number of elifs is rebuilt, the else
    block is rebuilt last, and it is the [orelse] of the innermost
    conditional: from the outer node, each [orelse] down to it holds
    exactly one conditional, one per elif.  Without an else block the
    innermost [orelse] is empty. *)
Theorem visit_if_else_innermost (frame : scope_ref)
    (li : TreeRebuilder.lineinfo) (test : TreeRebuilder.cnode)
    (body : list TreeRebuilder.cnode)
    (elifs : list (TreeRebuilder.cnode * list TreeRebuilder.cnode))
    (else_ : option (list TreeRebuilder.cnode))
    (st st' : TreeRebuilder.RebuildState) (n : TreeRebuilder.anode) :
  TreeRebuilder.visit frame
    (TreeRebuilder.CIf li ((test, body) :: elifs) else_) st
  = Ok (Some n, st') ->
  exists st1 block,
    _init_else_node frame else_ st1 = Ok (block, st')
    /\ chained_orelse (length elifs) (rebuilt_orelse (Ok (Some n, st')))
       = Some block.
Proof.
  rewrite visit_if_unfold. intros H.
  apply bind_inv in H as (test' & sta & _ & H).
  apply bind_inv in H as (body' & stb & _ & H).
  apply bind_inv in H as (orelse & stc & Helifs & Hret).
  injection Hret as <- <-. simpl.
  by apply visit_elifs_else in Helifs.
Qed.

Lemma visit_if_else_innermost_witness :
  exists st1 block,
    _init_else_node (InModule 0) (Some [TreeRebuilder.CPass (span 6 6)]) st1
    = Ok (block, module_level)
    /\ chained_orelse 1 (rebuilt_orelse (Ok (Some if_elif_else_node,
                                             module_level)))
       = Some block.
Proof.
  apply (visit_if_else_innermost (InModule 0) (span 1 6)
           (TreeRebuilder.CName (span 1 1) "a")
           [TreeRebuilder.CPass (span 2 2)]
           [(TreeRebuilder.CName (span 3 3) "b",
             [TreeRebuilder.CPass (span 4 4)])]
           (Some [TreeRebuilder.CPass (span 6 6)]) module_level).
  vm_compute. reflexivity.
Defined.

Example if_elif_else_innermost :
  chained_orelse 1 (rebuilt_orelse (Ok (Some if_elif_else_node, module_level)))
  = Some [Some (TreeRebuilder.NPass (span 6 6))].
Proof. vm_compute. reflexivity. Qed.

(** ** [visit_function] *)

(** X14. [visit_function] stores the function under its identity and
    appends it to the bindings of its name in the frame: the earlier
    bindings of the name stay, in their order, before the new one. *)
Theorem visit_function_registers (g : Graph) (fid : nat)
    (newnode : FunctionNode) (name : string) (frame : scope_ref) :
  has_table g (Locals frame) = true ->
  frame <> InFunction fid ->
  let r := RebuildVisitor.visit_function g fid newnode name frame in
  functions r.2 !! fid = Some r.1
  /\ f_name r.1 = name
  /\ locals_of r.2 frame !! name
     = Some (default [] (locals_of g frame !! name) ++ [FunctionN fid]).
Proof.
  intros Htab Hframe. cbv zeta. unfold RebuildVisitor.visit_function.
  cbn [fst snd]. set (newnode' := mkFunction _ _ _ _ _ _).
  set (g' := set_functions _ g).
  assert (has_table g' (Locals frame) = true) as Htab'.
  { destruct frame as [m|c|f]; try exact Htab. simpl in *.
    apply bool_decide_eq_true. apply bool_decide_eq_true in Htab.
    rewrite lookup_insert_ne by congruence. done. }
  assert (locals_of g' frame = locals_of g frame) as Hloc.
  { destruct frame as [m|c|f]; try reflexivity. simpl.
    rewrite lookup_insert_ne by congruence. done. }
  split; [|split; [done|]].
  - unfold set_local. destruct frame as [m|c|f]; simpl;
      try apply lookup_insert_eq.
    rewrite lookup_alter_ne by congruence. apply lookup_insert_eq.
  - rewrite locals_of_set_local by done. by rewrite Hloc.
Qed.

Lemma visit_function_registers_witness :
  let r := RebuildVisitor.visit_function one_class 1
             (RebuildVisitor.new_function 0 None None ∅) "f" (InClass 0) in
  functions r.2 !! 1 = Some r.1
  /\ f_name r.1 = "f"
  /\ locals_of r.2 (InClass 0) !! "f"
     = Some (default [] (locals_of one_class (InClass 0) !! "f")
             ++ [FunctionN 1]).
Proof.
  apply (visit_function_registers one_class 1
           (RebuildVisitor.new_function 0 None None ∅) "f" (InClass 0)).
  - reflexivity.
  - discriminate.
Defined.

(** X15. A decorator changes the type of a function only when it is a
    bare name: with decorators that are attribute accesses, calls or
    other expressions (whatever they name), a function in a class body
    is a method, or a classmethod when it is [__new__], and a function
    elsewhere keeps its type. *)
Theorem visit_function_other_decorators (g : Graph) (fid : nat)
    (newnode : FunctionNode) (name : string) (frame : scope_ref)
    (nodes : list expr) :
  f_decorators newnode = Some nodes ->
  Forall (fun d => forall n, d <> Name n) nodes ->
  f_type (RebuildVisitor.visit_function g fid newnode name frame).1
  = match frame with
    | InClass _ =>
      if decide (name = "__new__") then RClassmethod else RMethod
    | _ => f_type newnode
    end.
Proof.
  intros Hdec Hall. rewrite visit_function_type, Hdec. simpl.
  assert (omap RebuildVisitor.decorator_type nodes = []) as Hnone.
  { clear Hdec. induction nodes as [|d nodes IH]; [done|].
    apply Forall_cons in Hall as [Hd Hall].
    destruct d as [n| | |]; [by destruct (Hd n)| | |]; exact (IH Hall). }
  unfold last_decorator_type. by rewrite Hnone.
Qed.

Lemma visit_function_other_decorators_witness :
  f_type (RebuildVisitor.visit_function one_class 1
            (RebuildVisitor.new_function 0 None
               (Some [Getattr (Name "abc") "staticmethod";
                      CallFunc (Name "classmethod")]) ∅)
            "f" (InClass 0)).1
  = RMethod.
Proof.
  apply (visit_function_other_decorators one_class 1 _ "f" (InClass 0)
           [Getattr (Name "abc") "staticmethod";
            CallFunc (Name "classmethod")]).
  - reflexivity.
  - repeat constructor; discriminate.
Defined.

(** ** Deferred attribute assignments, in general *)

Section DeferredMore.

Import RebuildVisitor.

Variable node : AssAttrNode.




End DeferredMore.




(** ** Bindings and lookups on a module *)

Section ModuleBindings.

Import TreeRebuilder.


Lemma filter_kind_snoc cls (l : list node) (n : node) :
  filter (fun x => is_kind cls x = false) (Existing <$> (l ++ [n]))
  = filter (fun x => is_kind cls x = false) (Existing <$> l)
    ++ (if is_kind cls (Existing n) then [] else [Existing n]).
Proof.
  rewrite fmap_app, filter_app. f_equal. cbn [fmap list_fmap].
  destruct (is_kind cls (Existing n)) eqn:Hk.
  - by rewrite filter_cons_False by (by rewrite Hk).
  - by rewrite filter_cons_True by done.
Qed.

End ModuleBindings.



(** X19. Deleting a name that has bindings at the top of a module does
    not change what the module's [getattr] answers for it: the
    [DelName] binding is added to [locals] and filtered out of every
    lookup, so the earlier bindings are still found. *)
Theorem module_delete_keeps_bindings (st : TreeRebuilder.RebuildState)
    (m : nat) (li : TreeRebuilder.lineinfo) (name flags : string)
    (bindings : list node) :
  TreeRebuilder.asscontext st = None
  \/ TreeRebuilder.asscontext st = Some TreeRebuilder.Del ->
  locals_of (TreeRebuilder.graph st) (InModule m) !! name = Some bindings ->
  name ∉ ModuleNG.special_attributes ->
  exists r st',
    TreeRebuilder.visit (InModule m)
      (TreeRebuilder.CAssName li name flags) st = Ok (r, st')
    /\ locals_of (TreeRebuilder.graph st') (InModule m) !! name
       = Some (bindings ++ [StmtN DelName (TreeRebuilder.next_id st)
                                  (InModule m)])
    /\ ModuleNG.getattr (TreeRebuilder.graph st') m name
       = ModuleNG.getattr (TreeRebuilder.graph st) m name.
Proof.
  intros Hctx Hloc Hsp.
  destruct (visit_delete st (InModule m) li name flags Hctx)
    as (scope & Hv & Hsc).
  assert (scope = InModule m) as -> by (by destruct Hsc).
  assert (has_table (TreeRebuilder.graph st) (Locals (InModule m)) = true)
    as Htab.
  { simpl in *. apply bool_decide_eq_true.
    destruct (modules (TreeRebuilder.graph st) !! m); [eauto|done]. }
  eexists. eexists. split; [exact Hv|]. cbn [TreeRebuilder.graph].
  rewrite locals_of_set_local by done. rewrite Hloc.
  split; [reflexivity|].
  unfold ModuleNG.getattr, ModuleNG.getattr_body.
  rewrite !decide_False by done. rewrite locals_of_set_local by done.
  rewrite Hloc. unfold remove_nodes. cbn [default from_option id].
  rewrite filter_kind_snoc. simpl. by rewrite app_nil_r.
Qed.

Lemma module_delete_keeps_bindings_witness :
  exists r st',
    TreeRebuilder.visit (InModule 0)
      (TreeRebuilder.CAssName (span 2 2) "x" "OP_DELETE")
      (TreeRebuilder.mkState None [] assigned_module 6) = Ok (r, st')
    /\ locals_of (TreeRebuilder.graph st') (InModule 0) !! "x"
       = Some ([StmtN AssName 5 (InModule 0)]
               ++ [StmtN DelName 6 (InModule 0)])
    /\ ModuleNG.getattr (TreeRebuilder.graph st') 0 "x"
       = ModuleNG.getattr assigned_module 0 "x".
Proof.
  apply (module_delete_keeps_bindings
           (TreeRebuilder.mkState None [] assigned_module 6) 0 (span 2 2)
           "x" "OP_DELETE" [StmtN AssName 5 (InModule 0)]).
  - left; reflexivity.
  - vm_compute; reflexivity.
  - vm_compute. intros H.
    repeat (apply elem_of_cons in H as [H|H]; [discriminate|]).
    by apply not_elem_of_nil in H.
Defined.

(** ** Bindings kept by [set_local] *)

Section SetLocal.

Lemma has_table_set_local g s name n t :
  has_table (set_local g s name n) t = has_table g t.
Proof. unfold set_local. apply has_table_set_table. Qed.

Lemma set_local_keeps g s' k' n t k (x : node) :
  x ∈ default [] (table g t !! k) ->
  x ∈ default [] (table (set_local g s' k' n) t !! k).
Proof.
  intros Hx. unfold set_local.
  destruct (has_table g (Locals s')) eqn:Htab;
    [|by rewrite set_table_missing].
  destruct (decide (Locals s' = t)) as [<-|Hne];
    [|by rewrite table_set_table_ne].
  rewrite table_set_table_eq by done.
  destruct (decide (k' = k)) as [->|Hk]; [|by rewrite lookup_insert_ne].
  rewrite lookup_insert_eq. simpl. apply elem_of_app. by left.
Qed.

Lemma set_local_binds g s name n :
  has_table g (Locals s) = true ->
  n ∈ default [] (locals_of (set_local g s name n) s !! name).
Proof.
  intros Htab. rewrite locals_of_set_local by done. simpl.
  apply elem_of_app. right. apply list_elem_of_here.
Qed.

Lemma first_component_no_dot s : has_dot (first_component s) = false.
Proof.
  induction s as [|c s IH]; [done|]. simpl.
  case_decide as Hc; [done|]. simpl. by rewrite decide_False.
Qed.

Lemma save_import_locals_keeps names : forall g frame newnode t k (x : node),
  x ∈ default [] (table g t !! k) ->
  x ∈ default [] (table (_save_import_locals g frame newnode names) t !! k).
Proof.
  unfold _save_import_locals.
  induction names as [|[name asname] names IH]; intros g frame newnode t k x Hx;
    [done|].
  cbn [foldl]. apply IH. by apply set_local_keeps.
Qed.

End SetLocal.

(** X20. An [import] statement binds, for each imported module, the
    first component of its name, or of its alias when it has one: after
    [_save_import_locals] the frame has the [Import] node under that
    key, which holds no dot. *)
Theorem save_import_locals_binds (g : Graph) (frame : scope_ref)
    (newnode : nat) (names : list (string * option string))
    (name : string) (asname : option string) :
  has_table g (Locals frame) = true ->
  (name, asname) ∈ names ->
  let key := first_component (imported_as name asname) in
  has_dot key = false
  /\ StmtN Import newnode frame
     ∈ default []
         (locals_of (_save_import_locals g frame newnode names) frame !! key).
Proof.
  intros Htab Hin. cbv zeta. split; [apply first_component_no_dot|].
  revert g Htab. unfold _save_import_locals.
  induction names as [|[name' asname'] names IH]; intros g Htab.
  - by apply not_elem_of_nil in Hin.
  - cbn [foldl]. apply elem_of_cons in Hin as [[= <- <-]|Hin].
    + apply (save_import_locals_keeps names _ frame newnode (Locals frame)).
      by apply set_local_binds.
    + apply IH; [done|]. by rewrite has_table_set_local.
Qed.

Lemma save_import_locals_binds_witness :
  let key := first_component (imported_as "os.path" None) in
  has_dot key = false
  /\ StmtN Import 3 (InModule 0)
     ∈ default []
         (locals_of (_save_import_locals one_class (InModule 0) 3
                       [("sys", None); ("os.path", None)])
                    (InModule 0) !! key).
Proof.
  apply (save_import_locals_binds one_class (InModule 0) 3
           [("sys", None); ("os.path", None)] "os.path" None).
  - reflexivity.
  - apply elem_of_cons. right. apply list_elem_of_here.
Defined.

Example import_os_path_binds_os :
  first_component (imported_as "os.path" None) = "os"
  /\ first_component (imported_as "os.path" (Some "p")) = "p".
Proof. split; reflexivity. Qed.

(** ** The type of a class *)

Section ClassType.

Lemma _class_type_cached fuel g types klass t types' :
  _class_type fuel g types klass = Some (t, types') ->
  types' !! klass = Some t.
Proof.
  destruct fuel as [|fuel]; [done|]. cbn [_class_type].
  destruct (types !! klass) as [t0|] eqn:Hhit; [by intros [= <- <-]|].
  case_decide; [intros [= <- <-]; apply lookup_insert_eq|].
  destruct (endswith _ "Interface");
    [intros [= <- <-]; apply lookup_insert_eq|].
  destruct (endswith _ "Exception");
    [intros [= <- <-]; apply lookup_insert_eq|].
  destruct (ClassNG.ancestors _ _ _ _ _) as [bases|]; [|done].
  cbn [mbind option_bind]. clear Hhit. revert types.
  induction bases as [|base rest IH]; intros types.
  - intros [= <- <-]. apply lookup_insert_eq.
  - destruct (_class_type fuel g types base) as [[t1 types1]|]; [|done].
    cbn [mbind option_bind]. case_decide; [apply IH|].
    intros [= <- <-]. apply lookup_insert_eq.
Qed.

End ClassType.

(** X21. The type of a class is computed once: a call of
    [_class_type] that returns has stored the type in the [_type]
    attribute of the class, and every later call answers with it right
    away, without looking at the name or the bases again. *)
Theorem class_type_memoized (fuel fuel' : nat) (g : Graph)
    (types types' : gmap nat class_type) (klass : nat) (t : class_type) :
  _class_type fuel g types klass = Some (t, types') ->
  types' !! klass = Some t
  /\ _class_type (S fuel') g types' klass = Some (t, types').
Proof.
  intros H. apply _class_type_cached in H. split; [done|].
  cbn [_class_type]. by rewrite H.
Qed.

Lemma class_type_memoized_witness :
  (<[1 := TException]> (<[2 := TException]> ∅) : gmap nat class_type) !! 1
  = Some TException
  /\ _class_type 1 inheriting_pair (<[1 := TException]> (<[2 := TException]> ∅)) 1
     = Some (TException, <[1 := TException]> (<[2 := TException]> ∅)).
Proof.
  apply (class_type_memoized 2 0 inheriting_pair ∅).
  vm_compute. reflexivity.
Defined.

(** ** The arguments of a function *)

Section Arguments.

Import TreeRebuilder.

Lemma binds_nil frame st : binds frame [] st st.
Proof.
  unfold binds. repeat split; try done.
  intros _ name H. by apply not_elem_of_nil in H.
Qed.

Lemma binds_app frame names1 names2 st st1 st2 :
  binds frame names1 st st1 -> binds frame names2 st1 st2 ->
  binds frame (names1 ++ names2) st st2.
Proof.
  intros (Hg1 & Hn1 & Ht1 & Hk1 & Hb1) (Hg2 & Hn2 & Ht2 & Hk2 & Hb2).
  unfold binds. split; [congruence|]. split; [lia|].
  split; [intros t; by rewrite Ht2|]. split; [auto|].
  intros Htab name Hin Hnot. apply elem_of_app in Hin as [Hin|Hin].
  - destruct (Hb1 Htab name Hin Hnot) as (id & Hid & Hx).
    exists id. split; [lia|]. by apply (Hk2 (Locals frame)).
  - destruct (Hb2 (eq_trans (Ht1 _) Htab) name Hin) as (id & Hid & Hx).
    + unfold declared_global in *. by rewrite Hg1.
    + exists id. split; [lia|done].
Qed.

Lemma binds_name frame li name st :
  exists id st',
    _nodify_arg frame li (ArgName name) st = Ok (NArgName li id name, st')
    /\ binds frame [name] st st'.
Proof.
  exists (next_id st). eexists. split; [reflexivity|].
  unfold binds. cbn [_global_names next_id graph].
  split; [done|]. split; [lia|].
  split; [intros t; apply has_table_set_local|].
  split; [intros t k x; apply set_local_keeps|].
  intros Htab name' Hin Hnot. apply list_elem_of_singleton in Hin as ->.
  exists (next_id st). split; [lia|].
  destruct (last (_global_names st)) as [names|] eqn:Hlast;
    [|by apply set_local_binds].
  case_decide as Hdecl; [|by apply set_local_binds].
  destruct Hnot. by exists names.
Qed.

Lemma nodify_arg_binds frame li (arg : argspec) : forall st,
  exists n st',
    _nodify_arg frame li arg st = Ok (n, st')
    /\ _rec_get_name n = leaf_name arg
    /\ binds frame (leaf_name arg) st st'.
Proof.
  induction arg as [name|elts IH] using argspec_elts_ind; intros st.
  - destruct (binds_name frame li name st) as (id & st' & Hrun & Hb).
    by exists (NArgName li id name), st'.
  - cbn [_nodify_arg leaf_name].
    match goal with
    | |- context [mbind _ (?f elts)] => set (nodify := f)
    end.
    match goal with
    | |- context [?f elts] =>
      match f with
      | nodify => fail 1
      | _ => set (leaves := f)
      end
    end.
    assert (exists ns st',
               nodify elts st = Ok (ns, st')
               /\ _rec_get_names ns = leaves elts
               /\ binds frame (leaves elts) st st') as (ns & st' & Hrun & Hn & Hb).
    { clear -IH. revert st. induction IH as [|arg rest Harg _ IHrest]; intros st.
      - exists [], st. split; [done|]. split; [done|]. apply binds_nil.
      - destruct (Harg st) as (n & st1 & Hrun1 & Hn1 & Hb1).
        destruct (IHrest st1) as (ns & st2 & Hrun2 & Hn2 & Hb2).
        exists (n :: ns), st2. split; [|split].
        + cbn [nodify]. fold nodify.
          rewrite (bind_ok _ _ _ _ _ Hrun1), (bind_ok _ _ _ _ _ Hrun2). done.
        + cbn [_rec_get_names leaves]. by rewrite Hn1, Hn2.
        + cbn [leaves]. by eapply binds_app. }
    exists (NArgTuple li ns), st'. split; [|split].
    + by rewrite (bind_ok _ _ _ _ _ Hrun).
    + cbn [_rec_get_name]. rewrite <- Hn. clear.
      induction ns as [|n ns IHns]; [done|]. cbn [_rec_get_names]. by f_equal.
    + done.
Qed.

Lemma nodify_args_binds frame li (values : list argspec) : forall st,
  exists ns st',
    _nodify_args frame li values st = Ok (ns, st')
    /\ _rec_get_names ns = leaf_names values
    /\ binds frame (leaf_names values) st st'.
Proof.
  induction values as [|arg rest IH]; intros st.
  - exists [], st. split; [done|]. split; [done|]. apply binds_nil.
  - destruct (nodify_arg_binds frame li arg st) as (n & st1 & Hrun1 & Hn1 & Hb1).
    destruct (IH st1) as (ns & st2 & Hrun2 & Hn2 & Hb2).
    exists (n :: ns), st2. split; [|split].
    + cbn [_nodify_args].
      rewrite (bind_ok _ _ _ _ _ Hrun1), (bind_ok _ _ _ _ _ Hrun2). done.
    + cbn [_rec_get_names leaf_names]. by rewrite Hn1, Hn2.
    + cbn [leaf_names]. by eapply binds_app.
Qed.

End Arguments.

(** X22. Round trip of the argument names: [_nodify_args] never fails,
    and [_rec_get_names] reads from the nodes it built the names of the
    arguments, those inside nested tuples included, from left to
    right. *)
Theorem nodify_args_names (frame : scope_ref) (li : TreeRebuilder.lineinfo)
    (values : list argspec) (st : TreeRebuilder.RebuildState) :
  exists nodes st',
    _nodify_args frame li values st = Ok (nodes, st')
    /\ _rec_get_names nodes = leaf_names values.
Proof.
  destruct (nodify_args_binds frame li values st) as (ns & st' & H1 & H2 & _).
  by exists ns, st'.
Qed.

(** X23. Every argument name becomes a local of the function: after
    [_nodify_args], each name that is not declared global, nested or
    not, is bound in [frame] to a new [AssName] node, and no binding
    made before is lost. *)
Theorem nodify_args_binds_names (frame : scope_ref)
    (li : TreeRebuilder.lineinfo) (values : list argspec)
    (st st' : TreeRebuilder.RebuildState) (nodes : list argnode)
    (name : string) :
  has_table (TreeRebuilder.graph st) (Locals frame) = true ->
  name ∈ leaf_names values ->
  ~ declared_global st name ->
  _nodify_args frame li values st = Ok (nodes, st') ->
  (exists id,
      TreeRebuilder.next_id st <= id < TreeRebuilder.next_id st'
      /\ StmtN AssName id frame
         ∈ default [] (locals_of (TreeRebuilder.graph st') frame !! name))
  /\ (forall s k (x : node),
        x ∈ default [] (locals_of (TreeRebuilder.graph st) s !! k) ->
        x ∈ default [] (locals_of (TreeRebuilder.graph st') s !! k)).
Proof.
  intros Htab Hin Hnot Hrun.
  destruct (nodify_args_binds frame li values st)
    as (ns & st1 & Hrun1 & _ & (_ & _ & _ & Hkeep & Hb)).
  rewrite Hrun in Hrun1. injection Hrun1 as <- <-.
  split; [by apply Hb|]. intros s k x. apply (Hkeep (Locals s)).
Qed.

Lemma nodify_args_binds_names_witness :
  (exists id,
      0 <= id < 3
      /\ StmtN AssName id (InModule 0)
         ∈ default []
             (locals_of
                (set_local
                   (set_local
                      (set_local one_class (InModule 0) "a"
                                 (StmtN AssName 0 (InModule 0)))
                      (InModule 0) "b" (StmtN AssName 1 (InModule 0)))
                   (InModule 0) "c" (StmtN AssName 2 (InModule 0)))
                (InModule 0) !! "b"))
  /\ (forall s k (x : node),
        x ∈ default [] (locals_of one_class s !! k) ->
        x ∈ default []
            (locals_of
               (set_local
                  (set_local
                     (set_local one_class (InModule 0) "a"
                                (StmtN AssName 0 (InModule 0)))
                     (InModule 0) "b" (StmtN AssName 1 (InModule 0)))
                  (InModule 0) "c" (StmtN AssName 2 (InModule 0)))
               s !! k)).
Proof.
  apply (nodify_args_binds_names (InModule 0) TreeRebuilder.no_lines
           [ArgName "a"; ArgTuple [ArgName "b"; ArgName "c"]]
           (TreeRebuilder.mkState None [] one_class 0)
           (TreeRebuilder.mkState None []
              (set_local
                 (set_local
                    (set_local one_class (InModule 0) "a"
                               (StmtN AssName 0 (InModule 0)))
                    (InModule 0) "b" (StmtN AssName 1 (InModule 0)))
                 (InModule 0) "c" (StmtN AssName 2 (InModule 0))) 3)
           [NArgName TreeRebuilder.no_lines 0 "a";
            NArgTuple TreeRebuilder.no_lines
              [NArgName TreeRebuilder.no_lines 1 "b";
               NArgName TreeRebuilder.no_lines 2 "c"]]
           "b").
  - reflexivity.
  - vm_compute. apply elem_of_cons. right. apply list_elem_of_here.
  - intros (names & Hlast & _). discriminate.
  - reflexivity.
Defined.

(** ** Instance attributes through the ancestors *)

Section InstanceAttr.

Import ClassNG.

Lemma bases_of_set_table g t d c :
  bases_of (set_table g t d) c = bases_of g c.
Proof.
  unfold bases_of.
  destruct t as [c'|[m|c'|f]]; simpl; try reflexivity;
    rewrite lookup_alter; case_decide; subst; try reflexivity;
    match goal with |- context [?m !! ?k] => destruct (m !! k) end; done.
Qed.

Lemma infer_set_table g t d path stmt :
  infer (set_table g t d) path stmt = infer g path stmt.
Proof. destruct t as [c'|[m|c'|f]]; reflexivity. Qed.

Lemma mapM_ext_eq {A B} (f f' : A -> option B) (l : list A) :
  (forall x, f x = f' x) -> mapM f l = mapM f' l.
Proof.
  intros H. induction l as [|x l IH]; [done|].
  cbn [mapM]. by rewrite H, IH.
Qed.

Lemma ancestors_set_table fuel : forall g t d recurs context self,
  ancestors fuel (set_table g t d) recurs context self
  = ancestors fuel g recurs context self.
Proof.
  induction fuel as [|fuel IH]; intros g t d recurs context self; [done|].
  cbn [ancestors]. rewrite bases_of_set_table. f_equal.
  apply mapM_ext_eq. intros stmt. rewrite infer_set_table. f_equal.
  apply mapM_ext_eq. intros [| | | |[| c |  |]]; try reflexivity.
  by rewrite IH.
Qed.

Lemma inherited_set_table g self d ancs name :
  self ∉ ancs ->
  inherited_instance_attrs (set_table g (InstanceAttrs self) d) ancs name
  = inherited_instance_attrs g ancs name.
Proof.
  unfold inherited_instance_attrs. induction ancs as [|c ancs IH]; [done|].
  intros Hnot. apply not_elem_of_cons in Hnot as [Hne Hnot].
  rewrite !filter_cons.
  rewrite (table_set_table_ne g (InstanceAttrs self) (InstanceAttrs c))
    by congruence.
  case_decide; [|by apply IH].
  cbn [mbind list_bind]. rewrite table_set_table_ne by congruence.
  f_equal. by apply IH.
Qed.

Lemma table_has_table g t k (v : list node) :
  table g t !! k = Some v -> has_table g t = true.
Proof.
  destruct t as [c|[m|c|f]]; simpl; intros H; apply bool_decide_eq_true;
    match goal with
    | |- is_Some (?m !! ?k) => destruct (m !! k); [done|]
    end; simpl in H; by rewrite lookup_empty in H.
Qed.

End InstanceAttr.

(** X24. [instance_attr] extends the list stored in the class:
    when the class has an entry for the name, [values += ...] appends
    the entries inherited from the ancestors to that very list, so the
    [instance_attrs] of the class hold them afterwards, and a second
    call appends them once more. *)
Theorem instance_attr_extends_in_place (fuel : nat) (g g' : Graph)
    (context : option (list nat)) (self : nat) (name : string)
    (own : list node) (r : res (list attr_node)) :
  table g (InstanceAttrs self) !! name = Some own ->
  instance_attr fuel g context self name = Some (r, g') ->
  exists ancestors,
    ClassNG.ancestors fuel g true context self = Some ancestors
    /\ let inherited := inherited_instance_attrs g ancestors name in
       table g' (InstanceAttrs self) !! name = Some (own ++ inherited)
       /\ exists r2 g2,
            instance_attr fuel g' context self name = Some (r2, g2)
            /\ table g2 (InstanceAttrs self) !! name
               = Some ((own ++ inherited) ++ inherited).
Proof.
  intros Hown Hrun. unfold instance_attr in Hrun.
  destruct (ClassNG.ancestors fuel g true context self) as [ancs|] eqn:Hanc;
    [|done].
  cbn [mbind option_bind] in Hrun. rewrite Hown in Hrun.
  cbn [default] in Hrun.
  set (inh := inherited_instance_attrs g ancs name) in *.
  set (g1 := set_table g _ _) in Hrun.
  assert (g' = g1) as -> by congruence. clear Hrun.
  exists ancs. split; [done|]. cbv zeta. fold inh.
  pose proof (table_has_table _ _ _ _ Hown) as Htab.
  pose proof (ancestors_not_self _ _ _ _ _ _ Hanc) as Hnot.
  assert (table g1 (InstanceAttrs self) !! name = Some (own ++ inh)) as Hown'.
  { unfold g1. rewrite table_set_table_eq by done. apply lookup_insert_eq. }
  split; [done|].
  assert (ClassNG.ancestors fuel g1 true context self = Some ancs) as Hanc1
    by (unfold g1; by rewrite ancestors_set_table).
  unfold instance_attr. rewrite Hanc1.
  cbn [mbind option_bind]. rewrite Hown'. cbn [default].
  eexists _, _. split; [reflexivity|].
  rewrite table_set_table_eq by (unfold g1; by rewrite has_table_set_table).
  rewrite lookup_insert_eq. unfold g1. by rewrite inherited_set_table.
Qed.

Lemma instance_attr_extends_in_place_witness :
  exists ancestors,
    ClassNG.ancestors 2 inheriting_pair true None 1 = Some ancestors
    /\ let inherited := inherited_instance_attrs inheriting_pair ancestors "x" in
       table (set_table inheriting_pair (InstanceAttrs 1)
                (<["x" := [StmtN AssAttr 21 (InFunction 5);
                           StmtN AssAttr 20 (InFunction 6)]]> ∅))
             (InstanceAttrs 1) !! "x"
       = Some ([StmtN AssAttr 21 (InFunction 5)] ++ inherited)
       /\ exists r2 g2,
            instance_attr 2
              (set_table inheriting_pair (InstanceAttrs 1)
                 (<["x" := [StmtN AssAttr 21 (InFunction 5);
                            StmtN AssAttr 20 (InFunction 6)]]> ∅))
              None 1 "x" = Some (r2, g2)
            /\ table g2 (InstanceAttrs 1) !! "x"
               = Some (([StmtN AssAttr 21 (InFunction 5)] ++ inherited)
                       ++ inherited).
Proof.
  apply (instance_attr_extends_in_place 2 inheriting_pair _ None 1 "x"
           [StmtN AssAttr 21 (InFunction 5)]
           (Ok [Existing (StmtN AssAttr 21 (InFunction 5));
                Existing (StmtN AssAttr 20 (InFunction 6))])).
  - vm_compute. reflexivity.
  - vm_compute. reflexivity.
Defined.

(** ** Names declared global *)

Section Global.

Import TreeRebuilder.

Lemma last_alter {A} (F : A -> A) (l : list A) :
  last (alter F (length l - 1) l) = F <$> last l.
Proof.
  rewrite !last_lookup, length_alter, Nat.sub_1_r.
  apply list_lookup_alter_eq.
Qed.

Lemma global_names_recorded (newnode : nat) (names : list string) name :
  forall top : gmap string (list nat),
  name ∈ names \/ is_Some (top !! name) ->
  is_Some (foldl (fun top name =>
                    <[name := default [] (top !! name) ++ [newnode]]> top)
                 top names !! name).
Proof.
  induction names as [|n names IH]; intros top H.
  - destruct H as [H|H]; [by apply not_elem_of_nil in H|done].
  - cbn [foldl]. apply IH.
    destruct (decide (n = name)) as [->|Hne].
    + right. rewrite lookup_insert_eq. eauto.
    + destruct H as [H|H].
      * apply elem_of_cons in H as [->|H]; [done|by left].
      * right. by rewrite lookup_insert_ne.
Qed.

End Global.

(** X25. A name declared [global] inside a function is bound in the
    module: after [visit_global], an assignment to one of the declared
    names in the function appends the new [AssName] node to the locals
    of the root module and leaves the locals of the function as they
    were. *)
Theorem global_then_assign (st : TreeRebuilder.RebuildState)
    (names : list string) (name : string) (f : nat)
    (li : TreeRebuilder.lineinfo) :
  TreeRebuilder._global_names st <> [] ->
  name ∈ names ->
  TreeRebuilder.asscontext st = Some TreeRebuilder.Ass ->
  has_table (TreeRebuilder.graph st)
            (Locals (InModule (root_of (TreeRebuilder.graph st)
                                       (InFunction f)))) = true ->
  exists gid st1 st2,
    visit_global names st = Ok (gid, st1)
    /\ TreeRebuilder.visit (InFunction f)
         (TreeRebuilder.CAssName li name "OP_ASSIGN") st1
       = Ok (Some (TreeRebuilder.NAssName li (S gid) name), st2)
    /\ locals_of (TreeRebuilder.graph st2)
                 (InModule (root_of (TreeRebuilder.graph st) (InFunction f)))
       !! name
       = Some (default []
                 (locals_of (TreeRebuilder.graph st)
                    (InModule (root_of (TreeRebuilder.graph st)
                                       (InFunction f))) !! name)
               ++ [StmtN AssName (S gid) (InFunction f)])
    /\ locals_of (TreeRebuilder.graph st2) (InFunction f)
       = locals_of (TreeRebuilder.graph st) (InFunction f).
Proof.
  intros Hstack Hin Hctx Htab. destruct st as [ctx gn g id].
  cbn [TreeRebuilder._global_names TreeRebuilder.asscontext
       TreeRebuilder.graph] in *. subst ctx.
  set (F := fun top : gmap string (list nat) =>
              foldl (fun top name =>
                       <[name := default [] (top !! name) ++ [id]]> top)
                    top names).
  assert (exists top, last (alter F (length gn - 1) gn) = Some (F top))
    as (top & Hlast).
  { rewrite last_alter. destruct (last gn) as [top|] eqn:Hl; [by exists top|].
    by apply last_None in Hl. }
  assert (is_Some (F top !! name)) as Hdecl
    by (apply global_names_recorded; by left).
  exists id. eexists. eexists. split; [reflexivity|].
  cbn [TreeRebuilder.visit].
  unfold TreeRebuilder.visit_assname, TreeRebuilder._save_assignment,
    TreeRebuilder.fresh, TreeRebuilder.get_asscontext.
  unfold mbind, TreeRebuilder.M_bind, TreeRebuilder.bind.
  cbn [TreeRebuilder.asscontext TreeRebuilder._global_names
       TreeRebuilder.graph TreeRebuilder.next_id].
  rewrite decide_True by done. cbv beta. unfold TreeRebuilder.ret.
  cbn [TreeRebuilder.asscontext TreeRebuilder._global_names
       TreeRebuilder.graph TreeRebuilder.next_id].
  fold F. rewrite Hlast. rewrite decide_True by done.
  split; [reflexivity|]. cbn [TreeRebuilder.graph]. split.
  - by rewrite locals_of_set_local.
  - unfold set_local.
    apply (table_set_table_ne g (Locals (InModule _))
             (Locals (InFunction f))). discriminate.
Qed.

Lemma global_then_assign_witness :
  exists gid st1 st2,
    visit_global ["counter"]
      (TreeRebuilder.mkState (Some TreeRebuilder.Ass) [∅] one_function 7)
    = Ok (gid, st1)
    /\ TreeRebuilder.visit (InFunction 3)
         (TreeRebuilder.CAssName (span 2 2) "counter" "OP_ASSIGN") st1
       = Ok (Some (TreeRebuilder.NAssName (span 2 2) (S gid) "counter"), st2)
    /\ locals_of (TreeRebuilder.graph st2)
                 (InModule (root_of one_function (InFunction 3)))
       !! "counter"
       = Some (default []
                 (locals_of one_function
                    (InModule (root_of one_function (InFunction 3)))
                  !! "counter")
               ++ [StmtN AssName (S gid) (InFunction 3)])
    /\ locals_of (TreeRebuilder.graph st2) (InFunction 3)
       = locals_of one_function (InFunction 3).
Proof.
  apply (global_then_assign
           (TreeRebuilder.mkState (Some TreeRebuilder.Ass) [∅] one_function 7)
           ["counter"] "counter" 3 (span 2 2)).
  - discriminate.
  - apply list_elem_of_here.
  - reflexivity.
  - reflexivity.
Defined.

(** ** Special attributes that shadow the locals *)

(** X26. Only a package has a [__path__]: for a package the module's
    [getattr] answers a synthesized list followed by the bindings of
    the name that are not deletions; for any other module it raises
    [NotFoundError] whatever the module binds, an assignment to
    [__path__] included. *)
Theorem module_path_only_in_packages (g : Graph) (m : nat) :
  ModuleNG.getattr g m "__path__"
  = if default false (m_package <$> modules g !! m)
    then Ok (SynthList
               :: filter (fun n => is_kind DelName n = false)
                    (Existing <$>
                       default [] (locals_of g (InModule m) !! "__path__")))
    else Raise NotFoundError.
Proof.
  unfold ModuleNG.getattr, ModuleNG.getattr_body.
  rewrite (decide_True (P := "__path__" ∈ ModuleNG.special_attributes))
    by (unfold ModuleNG.special_attributes; set_solver).
  rewrite (decide_False (P := "__path__" = "__file__")) by done.
  rewrite (bool_decide_eq_true_2 ("__path__" = "__path__")) by done.
  destruct (default false (m_package <$> modules g !! m)); [|reflexivity].
  cbn [andb remove_nodes]. by rewrite filter_cons_True by done.
Qed.

Example module_path_assigned_in_plain_module :
  ModuleNG.getattr
    (set_local one_class (InModule 0) "__path__"
               (StmtN AssName 5 (InModule 0))) 0 "__path__"
  = Raise NotFoundError.
Proof. reflexivity. Qed.

(** X27. A class that is not new-style has no [__mro__]: [getattr]
    raises [NotFoundError] for this name whatever the class body binds
    and whatever its bases are. *)
Theorem class_mro_needs_newstyle (fuel : nat) (g : Graph)
    (context : option (list nat)) (self : nat) :
  ClassNG._newstyle_impl fuel g None self = Some false ->
  ClassNG.getattr fuel g context self "__mro__" = Some (Raise NotFoundError).
Proof.
  intros Hns. destruct fuel as [|fuel]; [done|].
  cbn [ClassNG.getattr].
  rewrite (decide_True (P := "__mro__" ∈ ClassNG.special_attributes))
    by (unfold ClassNG.special_attributes; set_solver).
  rewrite (decide_False (P := "__mro__" = "__module__")) by done.
  rewrite (decide_False (P := "__mro__" = "__bases__")) by done.
  rewrite (decide_True (P := "__mro__" = "__mro__")) by done.
  rewrite Hns. reflexivity.
Qed.

Lemma class_mro_needs_newstyle_witness :
  ClassNG.getattr 2
    (set_local one_class (InClass 0) "__mro__" (StmtN AssName 5 (InClass 0)))
    None 0 "__mro__"
  = Some (Raise NotFoundError).
Proof.
  apply (class_mro_needs_newstyle 2
           (set_local one_class (InClass 0) "__mro__"
                      (StmtN AssName 5 (InClass 0))) None 0).
  vm_compute. reflexivity.
Defined.

(** ** Absolute module names *)

Section AbsoluteModname.

Lemma split_dots_nonempty s : split_dots s <> [].
Proof.
  destruct s as [|c s]; [done|]. cbn [split_dots].
  case_decide; [done|]. by destruct (split_dots s).
Qed.

Lemma join_dots_cons c part parts :
  join_dots (String c part :: parts) = String c (join_dots (part :: parts)).
Proof. by destruct parts. Qed.

Lemma join_split_dots s : join_dots (split_dots s) = s.
Proof.
  induction s as [|c s IH]; [done|]. cbn [split_dots].
  pose proof (split_dots_nonempty s) as Hne.
  case_decide as Hc.
  - injection Hc as ->.
    destruct (split_dots s) as [|part parts]; [done|].
    change (join_dots ("" :: part :: parts))
      with ("" +:+ "." +:+ join_dots (part :: parts)).
    rewrite IH. reflexivity.
  - destruct (split_dots s) as [|part parts]; [done|].
    by rewrite join_dots_cons, IH.
Qed.

Lemma first_component_split s :
  head (split_dots s) = Some (first_component s).
Proof.
  induction s as [|c s IH]; [done|]. cbn [split_dots first_component].
  case_decide; [done|].
  destruct (split_dots s) as [|part parts]; [done|].
  simpl in *. by injection IH as ->.
Qed.

Lemma take_all_but_last {A} (l : list A) (x : A) :
  take (length (l ++ [x]) - 1) (l ++ [x]) = l.
Proof.
  rewrite length_app. cbn [length].
  replace (length l + 1 - 1) with (length l) by lia.
  by rewrite take_app_length.
Qed.

End AbsoluteModname.

(** X28. When absolute imports are not activated, the level 1 of an
    explicit relative import names the same module as no level at all:
    in a package, the name is put under the package itself, whose
    dotted name is split and joined again unchanged; in a plain module,
    under its parent package. *)
Theorem absolute_modname_level_one (g : Graph) (self : nat)
    (modname : string) :
  absolute_modname g self false modname (Some 1)
  = absolute_modname g self false modname None.
Proof.
  unfold absolute_modname. cbn [default andb].
  rewrite (bool_decide_eq_true_2 (1 <> 0)) by done.
  rewrite (bool_decide_eq_false_2 (0 <> 0)) by (intros H; by apply H).
  destruct (default false (m_package <$> modules g !! self)).
  - by rewrite take_all_but_last, join_split_dots.
  - by rewrite app_nil_r.
Qed.

(** X29. A relative import that climbs above the top of the dotted
    name is not refused: with a level that leaves no part of the name,
    [absolute_modname] answers the module name as it is, as for an
    absolute import. *)
Theorem absolute_modname_above_top (g : Graph) (self : nat)
    (activated : bool) (modname : string) (level : nat) :
  level <> 0 ->
  length (split_dots (scope_name g (InModule self)))
  + (if default false (m_package <$> modules g !! self) then 1 else 0)
  <= level ->
  absolute_modname g self activated modname (Some level) = modname.
Proof.
  intros Hlevel Hdepth. unfold absolute_modname. cbn [default].
  rewrite (bool_decide_eq_false_2 (level = 0)) by done.
  rewrite andb_false_r.
  rewrite (bool_decide_eq_true_2 (level <> 0)) by done. cbv zeta.
  set (parts := split_dots _ ++ _). unfold id.
  assert (length parts - level = 0) as ->.
  { unfold parts. rewrite length_app.
    destruct (default false _); cbn [length] in *; lia. }
  reflexivity.
Qed.

Lemma absolute_modname_above_top_witness :
  absolute_modname package_and_module 1 false "x" (Some 3) = "x".
Proof.
  apply (absolute_modname_above_top package_and_module 1 false "x" 3).
  - discriminate.
  - vm_compute. lia.
Defined.

Example absolute_modname_examples :
  absolute_modname package_and_module 0 false "x" None = "a.b.x"
  /\ absolute_modname package_and_module 1 false "x" None = "a.b.x"
  /\ absolute_modname package_and_module 1 false "x" (Some 2) = "a.x"
  /\ absolute_modname package_and_module 1 true "x" None = "x".
Proof. repeat split; reflexivity. Qed.
